(** * Order processing saga: a shallow embedding of the Go sources

    The development follows the repository:
    - [models]      : models/order.go (structs and string constants);
    - [activities]  : the four activity functions;
    - [engine]      : the part of the durable-execution engine the workflows
                      call (step executor with retries, version gate,
                      cooperative coroutine dispatcher, signal channels);
    - [workflows]   : [PaymentWorkflow] and [OrderWorkflow];
    - [codec]       : the payload codec (encryption of workflow data);
    - [worker], [starter] : the parts of the two programs that settle the
                      encryption key and build the order.

    Logger calls are left out: they have no effect on the workflow state. *)

From Stdlib Require Import ZArith List String Ascii Bool Lia Btauto.
From Stdlib Require Import Decimal DecimalString DecimalPos DecimalZ.
From stdpp Require Import base option strings countable gmap.
Import ListNotations.
Local Open Scope Z_scope.
Local Open Scope string_scope.

(** ** Go values *)

(** [time.Time] and [time.Duration] are carried as integers (nanoseconds). *)
Definition Time := Z.
Definition Duration := Z.
Definition Second : Duration := 1000000000.
Definition Minute : Duration := 60 * Second.

(** A [float64] is carried as its IEEE-754 bit pattern, a 64-bit unsigned
    integer: the code copies amounts and never computes with them. *)
Definition float64 := Z.

Definition float64_sign (f : float64) : bool := Z.testbit f 63.
Definition float64_exponent (f : float64) : Z := Z.land (Z.shiftr f 52) 2047.
Definition float64_mantissa (f : float64) : Z := Z.land f (Z.ones 52).

(** A Go [error] value, identified with its message; [nil] is [None] in an
    [option error]. *)
Inductive error : Type := errorString (msg : string).

Definition Error (e : error) : string := match e with errorString m => m end.

(** A Go pair [(T, error)] of which exactly one side is meaningful. *)
Inductive result (A : Type) : Type :=
| Ok (a : A)
| Fail (e : error).
Arguments Ok {A} a.
Arguments Fail {A} e.

(** [%d] of [fmt]: decimal digits with a leading minus sign. *)
Definition itoa (z : Z) : string := NilZero.string_of_int (Z.to_int z).


(** ** models/order.go *)
Module models.

Record Order := mkOrder {
  ID : string;
  Items : list string;
  Amount : float64;
  Order_Status : string;
  CreatedAt : Time
}.

Record OrderStatus := mkOrderStatus {
  OrderID : string;
  Status : string;
  Stage : string;
  IsExpedited : bool;
  PaymentStatus : string;
  LastUpdated : Time
}.

Record ValidationRequest := mkValidationRequest {
  ValidationRequest_OrderID : string;
  ValidationRequest_Amount : float64;
  ValidationRequest_Items : list string
}.

Record ValidationResponse := mkValidationResponse {
  Valid : bool;
  ValidationResponse_Message : string
}.

Record PaymentRequest := mkPaymentRequest {
  PaymentRequest_OrderID : string;
  PaymentRequest_Amount : float64
}.

Record PaymentResponse := mkPaymentResponse {
  Success : bool;
  TransactionID : string;
  Message : string
}.

Definition SignalCancel := "cancel".
Definition SignalExpedite := "expedite".

Definition StatusPending := "pending".
Definition StatusValidating := "validating".
Definition StatusProcessing := "processing".
Definition StatusCompleted := "completed".
Definition StatusCancelled := "cancelled".
Definition StatusFailed := "failed".

Definition StageValidation := "validation".
Definition StagePayment := "payment".
Definition StageProcessing := "processing".
Definition StageCompleted := "completed".

(** Field assignments [state.F = v] on the projection. *)
Definition with_Status (v : string) (s : OrderStatus) : OrderStatus :=
  mkOrderStatus (OrderID s) v (Stage s) (IsExpedited s) (PaymentStatus s) (LastUpdated s).
Definition with_Stage (v : string) (s : OrderStatus) : OrderStatus :=
  mkOrderStatus (OrderID s) (Status s) v (IsExpedited s) (PaymentStatus s) (LastUpdated s).
Definition with_IsExpedited (v : bool) (s : OrderStatus) : OrderStatus :=
  mkOrderStatus (OrderID s) (Status s) (Stage s) v (PaymentStatus s) (LastUpdated s).
Definition with_PaymentStatus (v : string) (s : OrderStatus) : OrderStatus :=
  mkOrderStatus (OrderID s) (Status s) (Stage s) (IsExpedited s) v (LastUpdated s).
Definition with_LastUpdated (v : Time) (s : OrderStatus) : OrderStatus :=
  mkOrderStatus (OrderID s) (Status s) (Stage s) (IsExpedited s) (PaymentStatus s) v.

End models.
Import models.

(** ** activities *)
Module activities.

(** What posting a request to the validation service comes to, as seen
    by [ValidateOrder]: the request cannot be built for the configured URL,
    [HTTPClient.Do] fails (timeout, connection error), the body cannot be
    read, or a response with a status code and a body arrives. For a
    response, [decoded] is what [json.Unmarshal] makes of the body. *)
Inductive HTTPExchange : Type :=
| NewRequestFailed (cause : error)
| DoFailed (cause : error)
| ReadAllFailed (StatusCode : Z) (cause : error)
| Response (StatusCode : Z) (body : string) (decoded : result ValidationResponse).

Definition StatusOK : Z := 200.

(** [fmt.Errorf("...: %w", err)]. *)
Definition wrap (prefix : string) (cause : error) : error :=
  errorString (prefix ++ ": " ++ Error cause).

(** [json.Marshal] of a request: the strings always encode, the amount does
    unless it is a NaN or an infinity. *)
Definition json_Marshal (validationReq : ValidationRequest) : option error :=
  let f := ValidationRequest_Amount validationReq in
  if Z.eqb (float64_exponent f) 2047 then
    Some (errorString
            ("json: unsupported value: "
               ++ (if negb (Z.eqb (float64_mantissa f) 0) then "NaN"
                   else if float64_sign f then "-Inf" else "+Inf")))
  else None.

Definition ValidateOrder (post : ValidationRequest -> HTTPExchange) (order : Order)
  : result ValidationResponse :=
  let validationReq :=
    {| ValidationRequest_OrderID := ID order;
       ValidationRequest_Amount := Amount order;
       ValidationRequest_Items := Items order |} in
  match json_Marshal validationReq with
  | Some err => Fail (wrap "failed to marshal validation request" err)
  | None =>
      match post validationReq with
      | NewRequestFailed err => Fail (wrap "failed to create request" err)
      | DoFailed err => Fail (wrap "failed to call validation service" err)
      | ReadAllFailed _ err => Fail (wrap "failed to read response body" err)
      | Response code body decoded =>
          if negb (Z.eqb code StatusOK) then
            Fail (errorString ("validation service returned status " ++ itoa code
                                 ++ ": " ++ body))
          else
            match decoded with
            | Fail err => Fail (wrap "failed to unmarshal validation response" err)
            | Ok validationResp => Ok validationResp
            end
      end
  end.

(** [ProcessPayment]; [unix] is [time.Now().Unix()] after the sleep. *)
Definition ProcessPayment (unix : Z) (paymentReq : PaymentRequest)
  : PaymentResponse * option error :=
  let transactionID :=
    "TXN-" ++ PaymentRequest_OrderID paymentReq ++ "-" ++ itoa unix in
  let response :=
    {| Success := true;
       TransactionID := transactionID;
       Message := "Payment processed successfully" |} in
  (response, None).

(** [ProcessOrder]. The processing time depends on the expedite flag; the
    heartbeats recorded meanwhile have no part in the result. [ctxDone]
    tells when the context is done, and with which [ctx.Err()], if it ever
    is: when that comes before the processing time is over, the error is
    returned. *)
Definition processingTime (isExpedited : bool) : Duration :=
  if isExpedited then 1 * Second else 2 * Second.

Definition ProcessOrder (ctxDone : option (Duration * error)) (order : Order)
           (isExpedited : bool) : option error :=
  match ctxDone with
  | Some (after, err) =>
      if Z.ltb after (processingTime isExpedited) then Some err else None
  | None => None
  end.

(** [NotifyOrderComplete]: sleeps, logs and returns nil. *)
Definition NotifyOrderComplete (order : Order) : option error := None.

End activities.

(** ** The durable-execution engine, as far as the workflows use it *)
Module engine.

(** [temporal.RetryPolicy]. The backoff coefficient is a [float64] in the
    SDK; the workflows only use the integral value 2.0. *)
Record RetryPolicy := mkRetryPolicy {
  InitialInterval : Duration;
  BackoffCoefficient : Z;
  MaximumInterval : Duration;
  MaximumAttempts : Z
}.

Record ActivityOptions := mkActivityOptions {
  StartToCloseTimeout : Duration;
  ScheduleToStartTimeout : Duration;
  ActivityOptions_RetryPolicy : RetryPolicy
}.

Record ChildWorkflowOptions := mkChildWorkflowOptions {
  WorkflowID : string;
  WorkflowExecutionTimeout : Duration;
  ChildWorkflowOptions_RetryPolicy : RetryPolicy
}.

(** The part of [workflow.Context] the workflows set and the engine
    reads. *)
Record Context := mkContext {
  activityOptions : ActivityOptions;
  childOptions : ChildWorkflowOptions
}.

Definition zeroRetryPolicy := mkRetryPolicy 0 0 0 0.
Definition Background : Context :=
  mkContext (mkActivityOptions 0 0 zeroRetryPolicy)
            (mkChildWorkflowOptions "" 0 zeroRetryPolicy).

Definition WithActivityOptions (ctx : Context) (o : ActivityOptions) : Context :=
  mkContext o (childOptions ctx).
Definition WithChildOptions (ctx : Context) (o : ChildWorkflowOptions) : Context :=
  mkContext (activityOptions ctx) o.

Definition DefaultVersion : Z := -1.

(** Modelled from the spec: what one attempt of a step comes to (section
    4.2); attempts are the engine's, whose code is not in the repository.
    Either the step function runs, on what the world gives it, or the
    engine gives the attempt up (a timeout expires, the worker is lost),
    which is a failure like any other. *)
Inductive Attempt (I : Type) : Type :=
| Ran (input : I)
| Lost (err : error).
Arguments Ran {I} input.
Arguments Lost {I} err.

Definition attempt_result {I A : Type} (f : I -> result A) (a : Attempt I) : result A :=
  match a with
  | Ran input => f input
  | Lost err => Fail err
  end.

(** What Go's [(T, error)] and [error] returns are to the engine. *)
Definition returned {A : Type} (r : A * option error) : result A :=
  match snd r with
  | Some err => Fail err
  | None => Ok (fst r)
  end.

Definition returned_error (r : option error) : result unit :=
  match r with
  | Some err => Fail err
  | None => Ok tt
  end.

(** Modelled from the spec: the Retry Policy Engine (section 4.2), which
    is the engine's, whose code is not in the repository. The wait before
    retry number [retry] (counted from 0) starts at the initial interval, is
    multiplied by the coefficient at each retry and is capped at the
    maximum interval. *)
Definition backoff (p : RetryPolicy) (retry : nat) : Duration :=
  Z.min (InitialInterval p * BackoffCoefficient p ^ Z.of_nat retry)
        (MaximumInterval p).

(** Modelled from the spec: the Step Executor (section 4.2), which is the
    engine's, whose code is not in the repository. [step n] is what attempt
    [n] of the step comes to. A successful attempt ends the execution; a
    failed one is retried after the backoff while attempts are left, and on
    exhaustion the last failure is surfaced unmodified. The result comes
    with the waits that were made, one per retry. The maximum counts the
    first attempt; the policies of the repository all have one (the
    engine's reading of 0 as no bound is left out). *)
Fixpoint attempts {A : Type} (p : RetryPolicy) (step : nat -> result A)
         (left : nat) (n : nat) : list Duration * result A :=
  match step n with
  | Ok a => ([], Ok a)
  | Fail e =>
      match left with
      | O => ([], Fail e)
      | S left' =>
          let (waits, r) := attempts p step left' (S n) in
          (backoff p n :: waits, r)
      end
  end.

Definition StepExecutor {A : Type} (p : RetryPolicy) (step : nat -> result A)
  : list Duration * result A :=
  attempts p step (Z.to_nat (MaximumAttempts p) - 1)%nat 0%nat.

(** Modelled from the spec: the Version Gate (section 4.3), which is the
    engine's [workflow.GetVersion], whose code is not in the repository.
    [markers] are the version markers in the instance's history. Without a
    marker for [changeID] the latest branch is chosen and recorded; with
    one, the recorded branch is returned whatever the running code's latest
    is. *)
Definition resolve (markers : gmap string Z) (changeID : string)
           (defaultBranch latestBranch : Z) : Z * gmap string Z :=
  match markers !! changeID with
  | Some recorded => (recorded, markers)
  | None => (latestBranch, <[changeID := latestBranch]> markers)
  end.

End engine.
Import engine.

(** ** workflows *)
Module workflows.

Definition OrderWorkflowName := "OrderProcessingWorkflow".
Definition PaymentWorkflowName := "PaymentWorkflow".

(** *** What an execution leaves behind *)

(** [workflow.ExecuteActivity(ctx, name, args...)], by activity. *)
Inductive Call : Type :=
| ValidateOrderCall (order : Order)
| ProcessPaymentCall (paymentReq : PaymentRequest)
| ProcessOrderCall (order : Order) (isExpedited : bool)
| NotifyOrderCompleteCall (order : Order).

Definition activityName (c : Call) : string :=
  match c with
  | ValidateOrderCall _ => "ValidateOrder"
  | ProcessPaymentCall _ => "ProcessPayment"
  | ProcessOrderCall _ _ => "ProcessOrder"
  | NotifyOrderCompleteCall _ => "NotifyOrderComplete"
  end.

Inductive Field : Type := FStatus | FStage | FIsExpedited | FPaymentStatus.

(** The coroutines of an instance: the workflow function and the two
    closures [OrderWorkflow] hands to [workflow.Go]. *)
Inductive Coroutine : Type := Main | CancelLoop | ExpediteLoop.

(** The four places where [OrderWorkflow] blocks in [Future.Get]. *)
Inductive Step : Type :=
| AwaitValidateOrder | AwaitPayment | AwaitProcessOrder | AwaitNotifyOrderComplete.

Inductive Event : Type :=
| Assign (f : Field)                       (* state.f = ...                     *)
| Stamp                                    (* state.LastUpdated = workflow.Now  *)
| Invoke (c : Call)                        (* the step is handed to the engine  *)
| Settled (c : Call) (waits : list Duration) (err : option error)
                                           (* its result arrived, after retries *)
| StartChild (workflowID workflowType : string) (order : Order)
| ChildClosed (workflowID : string) (err : option error)
| Suspend (who : Coroutine)                (* the coroutine blocks              *)
| Completed.                               (* the workflow function returned    *)

(** The instance: the locals [OrderWorkflow] shares with its closures and
    the engine's side of it. [trace] is newest first. [observed] is a ghost
    of the model, not a variable of the code: it has one entry for each
    event of [trace], the projection the handler of [getStatus] would
    return right after the event, and the workflow clock at that moment. *)
Record Store := mkStore {
  state : OrderStatus;
  cancelRequested : bool;
  now : Time;
  cancelChannel : nat;
  expediteChannel : nat;
  coroutines : list Coroutine;
  queryHandlers : list string;
  markers : gmap string Z;
  trace : list Event;
  observed : list (OrderStatus * Time)
}.

Definition set_state v (s : Store) :=
  mkStore v (cancelRequested s) (now s) (cancelChannel s) (expediteChannel s)
          (coroutines s) (queryHandlers s) (markers s) (trace s) (observed s).
Definition set_cancelRequested v (s : Store) :=
  mkStore (state s) v (now s) (cancelChannel s) (expediteChannel s)
          (coroutines s) (queryHandlers s) (markers s) (trace s) (observed s).
Definition set_now v (s : Store) :=
  mkStore (state s) (cancelRequested s) v (cancelChannel s) (expediteChannel s)
          (coroutines s) (queryHandlers s) (markers s) (trace s) (observed s).
Definition set_cancelChannel v (s : Store) :=
  mkStore (state s) (cancelRequested s) (now s) v (expediteChannel s)
          (coroutines s) (queryHandlers s) (markers s) (trace s) (observed s).
Definition set_expediteChannel v (s : Store) :=
  mkStore (state s) (cancelRequested s) (now s) (cancelChannel s) v
          (coroutines s) (queryHandlers s) (markers s) (trace s) (observed s).
Definition set_coroutines v (s : Store) :=
  mkStore (state s) (cancelRequested s) (now s) (cancelChannel s) (expediteChannel s)
          v (queryHandlers s) (markers s) (trace s) (observed s).
Definition set_queryHandlers v (s : Store) :=
  mkStore (state s) (cancelRequested s) (now s) (cancelChannel s) (expediteChannel s)
          (coroutines s) v (markers s) (trace s) (observed s).
Definition set_markers v (s : Store) :=
  mkStore (state s) (cancelRequested s) (now s) (cancelChannel s) (expediteChannel s)
          (coroutines s) (queryHandlers s) v (trace s) (observed s).
Definition emit (e : Event) (s : Store) :=
  mkStore (state s) (cancelRequested s) (now s) (cancelChannel s) (expediteChannel s)
          (coroutines s) (queryHandlers s) (markers s) (e :: trace s)
          ((state s, now s) :: observed s).

(** What the world does to one instance: the signals buffered before its
    first task, the markers already in its history, the signals handled
    while the workflow function awaits each step, the workflow clock when
    it resumes, and what each attempt of each step meets: what posting to
    the validation service comes to, the clock of a payment (by run of the
    child workflow and attempt; the direct activity has the attempts of run
    0), whether the context of a fulfilment gets done. *)
Record Env := mkEnv {
  started_at : Time;
  buffered_signals : list string;
  history_markers : gmap string Z;
  SetQueryHandler_result : option error;
  signals_during : Step -> list (string * Time);
  resumed_at : Step -> Time;
  validation_attempt : nat -> Attempt (ValidationRequest -> activities.HTTPExchange);
  payment_attempt : nat -> nat -> Attempt Z;
  fulfilment_attempt : nat -> Attempt (option (Duration * error));
  notification_attempt : nat -> Attempt unit
}.

(** *** Signals and coroutines *)

(** The engine puts a signal on the channel of its name. *)
Definition deliver (name : string) (s : Store) : Store :=
  if String.eqb name SignalCancel then set_cancelChannel (S (cancelChannel s)) s
  else if String.eqb name SignalExpedite then set_expediteChannel (S (expediteChannel s)) s
  else s.

(** The closure on [cancelChannel], run until [Receive] blocks: one turn of
    the loop per buffered signal. *)
Fixpoint cancel_loop (buffered : nat) (s : Store) : Store :=
  match buffered with
  | O => emit (Suspend CancelLoop) s
  | S rest =>
      let s := set_cancelChannel rest s in            (* cancelChannel.Receive(ctx, nil) *)
      let s := set_cancelRequested true s in          (* cancelRequested = true          *)
      cancel_loop rest s
  end.

(** The closure on [expediteChannel], likewise. *)
Fixpoint expedite_loop (buffered : nat) (s : Store) : Store :=
  match buffered with
  | O => emit (Suspend ExpediteLoop) s
  | S rest =>
      let s := set_expediteChannel rest s in          (* expediteChannel.Receive(ctx, nil) *)
      let s := emit (Assign FIsExpedited)
                    (set_state (with_IsExpedited true (state s)) s) in
      let s := emit Stamp
                    (set_state (with_LastUpdated (now s) (state s)) s) in
      expedite_loop rest s
  end.

Definition resume (c : Coroutine) (s : Store) : Store :=
  match c with
  | Main => s
  | CancelLoop => cancel_loop (cancelChannel s) s
  | ExpediteLoop => expedite_loop (expediteChannel s) s
  end.

(** Modelled from the spec: the scheduling model (section 5), which is
    the engine's, whose code is not in the repository. Coroutines started
    with [workflow.Go] do not run when they are started; they run, in the
    order of their creation and each until it blocks, only when the
    workflow function is suspended. The two closures do not wake each
    other, so one round is all there is to run. *)
Definition dispatch (s : Store) : Store :=
  fold_left (fun s c => resume c s) (coroutines s) s.

Definition signalled (s : Store) (arrival : string * Time) : Store :=
  dispatch (deliver (fst arrival) (set_now (snd arrival) s)).

(** The workflow function blocks at [step]: the other coroutines run, the
    signals that arrive meanwhile are handled, and the function resumes at
    the engine's clock. *)
Definition suspended (env : Env) (step : Step) (s : Store) : Store :=
  let s := dispatch (emit (Suspend Main) s) in
  let s := fold_left signalled (signals_during env step) s in
  set_now (resumed_at env step) s.

(** *** Workflow code: state with early return *)

Inductive Ctl (R A : Type) : Type :=
| Next (a : A)
| Returned (r : R).
Arguments Next {R A} a.
Arguments Returned {R A} r.

Definition Wf (R A : Type) : Type := Store -> Ctl R A * Store.

Definition ret {R A} (a : A) : Wf R A := fun s => (Next a, s).
Definition Return {R A} (r : R) : Wf R A := fun s => (Returned r, s).
Definition bind {R A B} (m : Wf R A) (k : A -> Wf R B) : Wf R B :=
  fun s =>
    match m s with
    | (Next a, s') => k a s'
    | (Returned r, s') => (Returned r, s')
    end.

Notation "x <- m ;; k" := (bind m (fun x => k))
  (at level 100, m at next level, right associativity).
Notation "m ;; k" := (bind m (fun _ => k))
  (at level 100, right associativity).

Definition modify {R} (f : Store -> Store) : Wf R unit := fun s => (Next tt, f s).
Definition read {R A} (f : Store -> A) : Wf R A := fun s => (Next (f s), s).

Definition Now {R} : Wf R Time := read now.

Definition assign {R} (f : Field) (upd : OrderStatus -> OrderStatus) : Wf R unit :=
  modify (fun s => emit (Assign f) (set_state (upd (state s)) s)).

(** [state.LastUpdated = workflow.Now(ctx)]. *)
Definition touch {R} : Wf R unit :=
  modify (fun s => emit Stamp (set_state (with_LastUpdated (now s) (state s)) s)).

(** [workflow.Go(ctx, f)]: the coroutine is created, not run. *)
Definition Go {R} (c : Coroutine) : Wf R unit :=
  modify (fun s => set_coroutines (coroutines s ++ [c])%list s).

Definition SetQueryHandler {R} (env : Env) (queryType : string) : Wf R (option error) :=
  fun s =>
    match SetQueryHandler_result env with
    | Some err => (Next (Some err), s)
    | None => (Next None, set_queryHandlers (queryType :: queryHandlers s) s)
    end.

(** The handler registered for [getStatus]: [return state, nil]. *)
Definition getStatus (s : Store) : OrderStatus * option error := (state s, None).

Definition GetVersion {R} (changeID : string) (minSupported maxSupported : Z)
  : Wf R Z :=
  fun s =>
    let (version, recorded) := resolve (markers s) changeID minSupported maxSupported in
    (Next version, set_markers recorded s).

Definition error_of {A} (r : result A) : option error :=
  match r with
  | Ok _ => None
  | Fail err => Some err
  end.

(** [workflow.ExecuteActivity(ctx, ...).Get(ctx, &out)]: the step is
    scheduled, the workflow function blocks, and the Step Executor's
    result under the context's retry policy comes back. *)

Definition ExecuteActivity {R A} (env : Env) (ctx : Context) (c : Call)
           (step : Step) (attempt : nat -> result A) : Wf R (result A) :=
  fun s =>
    let s := emit (Invoke c) s in
    let s := suspended env step s in
    let (waits, r) :=
      StepExecutor (ActivityOptions_RetryPolicy (activityOptions ctx)) attempt in
    (Next r, emit (Settled c waits (error_of r)) s).

(** The worker registers the four activity functions under their names
    (worker/main.go): attempt [n] of a step is the registered function run
    on what the world has for that attempt. *)
Definition ValidateOrder_attempt (env : Env) (order : Order) (n : nat)
  : result ValidationResponse :=
  attempt_result (fun post => activities.ValidateOrder post order)
                 (validation_attempt env n).

Definition ProcessPayment_attempt (env : Env) (run : nat)
           (paymentReq : PaymentRequest) (n : nat) : result PaymentResponse :=
  attempt_result (fun unix => returned (activities.ProcessPayment unix paymentReq))
                 (payment_attempt env run n).

Definition ProcessOrder_attempt (env : Env) (order : Order) (isExpedited : bool)
           (n : nat) : result unit :=
  attempt_result
    (fun ctxDone => returned_error (activities.ProcessOrder ctxDone order isExpedited))
    (fulfilment_attempt env n).

Definition NotifyOrderComplete_attempt (env : Env) (order : Order) (n : nat)
  : result unit :=
  attempt_result (fun _ : unit => returned_error (activities.NotifyOrderComplete order))
                 (notification_attempt env n).

Arguments ValidateOrder_attempt env order / n.
Arguments ProcessPayment_attempt env run paymentReq / n.
Arguments ProcessOrder_attempt env order isExpedited / n.
Arguments NotifyOrderComplete_attempt env order / n.

(** *** Starting an instance *)

Definition zeroOrderStatus : OrderStatus := mkOrderStatus "" "" "" false "" 0.

(** A new instance: nothing has run, and the signals that arrived before
    its first task wait on their channels. *)
Definition initial_store (env : Env) : Store :=
  fold_left (fun s name => deliver name s) (buffered_signals env)
            (mkStore zeroOrderStatus false (started_at env) 0 0 [] []
                     (history_markers env) [] []).

(** *** PaymentWorkflow *)

Definition RetryPolicy := engine.RetryPolicy.

Definition PaymentWorkflow (env : Env) (ctx : Context) (order : Order)
  : Wf (result PaymentResponse) unit :=
  (* Configure activity options *)
  let activityOptions :=
    {| StartToCloseTimeout := 10 * Second;
       ScheduleToStartTimeout := 5 * Second;
       ActivityOptions_RetryPolicy :=
         {| InitialInterval := Second;
            BackoffCoefficient := 2;
            MaximumInterval := 10 * Second;
            MaximumAttempts := 3 |} |} in
  let ctx := WithActivityOptions ctx activityOptions in
  (* Process payment *)
  let paymentReq :=
    {| PaymentRequest_OrderID := ID order;
       PaymentRequest_Amount := Amount order |} in
  r <- ExecuteActivity env ctx (ProcessPaymentCall paymentReq) AwaitPayment
                       (ProcessPayment_attempt env 0%nat paymentReq) ;;
  match r with
  | Fail err => Return (Fail err)
  | Ok paymentResp => Return (Ok paymentResp)
  end.

(** Run number [run] of the child is an instance of its own: no signals,
    no markers, and the payment attempts the world has for that run. *)
Definition child_env (env : Env) (run : nat) : Env :=
  {| started_at := started_at env;
     buffered_signals := [];
     history_markers := ∅;
     SetQueryHandler_result := None;
     signals_during := fun _ => [];
     resumed_at := resumed_at env;
     validation_attempt := validation_attempt env;
     payment_attempt := fun _ => payment_attempt env run;
     fulfilment_attempt := fulfilment_attempt env;
     notification_attempt := notification_attempt env |}.

Definition child_run (env : Env) (order : Order) (run : nat)
  : Ctl (result PaymentResponse) unit * Store :=
  let env' := child_env env run in
  PaymentWorkflow env' Background order (initial_store env').

Definition child_result (env : Env) (order : Order) (run : nat)
  : result PaymentResponse :=
  match fst (child_run env order run) with
  | Returned r => r
  | Next _ => Fail (errorString "workflow function did not return")
  end.

(** [workflow.ExecuteChildWorkflow(childCtx, PaymentWorkflowName, order)
    .Get(ctx, &out)]: the child is started under the identity and the
    retry policy of [childCtx], the parent blocks, and the child's result
    comes back; a failed run of the child is retried as a whole. The error
    of the child is passed on as it is (the engine wraps it; the wrapping is
    left out). *)
Definition ExecuteChildWorkflow {R} (env : Env) (childCtx : Context)
           (workflowType : string) (order : Order)
  : Wf R (result PaymentResponse) :=
  fun s =>
    let workflowID := WorkflowID (childOptions childCtx) in
    let s := emit (StartChild workflowID workflowType order) s in
    let s := suspended env AwaitPayment s in
    let (_, r) :=
      StepExecutor (ChildWorkflowOptions_RetryPolicy (childOptions childCtx))
                   (child_result env order) in
    (Next r, emit (ChildClosed workflowID (error_of r)) s).

(** *** OrderWorkflow *)

(** [if cancelRequested { ...; return nil }]. *)
Definition cancellation_checkpoint : Wf (option error) unit :=
  cancelled <- read cancelRequested ;;
  if cancelled : bool then
    assign FStatus (with_Status StatusCancelled) ;;
    touch ;;
    Return None
  else ret tt.

(** The branch for [version == workflow.DefaultVersion]: the payment
    activity is called directly. *)
Definition payment_via_activity (env : Env) (ctx : Context) (order : Order)
  : Wf (option error) PaymentResponse :=
  let paymentReq :=
    {| PaymentRequest_OrderID := ID order;
       PaymentRequest_Amount := Amount order |} in
  r <- ExecuteActivity env ctx (ProcessPaymentCall paymentReq) AwaitPayment
                       (ProcessPayment_attempt env 0%nat paymentReq) ;;
  match r with
  | Fail err =>
      assign FStatus (with_Status StatusFailed) ;;
      assign FPaymentStatus (with_PaymentStatus "failed") ;;
      touch ;;
      Return (Some err)
  | Ok activityResp => ret activityResp
  end.

(** The other branch: the payment is delegated to the child workflow. *)
Definition payment_via_child (env : Env) (ctx : Context) (order : Order)
  : Wf (option error) PaymentResponse :=
  let childWorkflowOptions :=
    {| WorkflowID := "payment-" ++ ID order;
       WorkflowExecutionTimeout := 2 * Minute;
       ChildWorkflowOptions_RetryPolicy :=
         {| InitialInterval := Second;
            BackoffCoefficient := 2;
            MaximumInterval := 10 * Second;
            MaximumAttempts := 3 |} |} in
  let childCtx := WithChildOptions ctx childWorkflowOptions in
  r <- ExecuteChildWorkflow env childCtx PaymentWorkflowName order ;;
  match r with
  | Fail err =>
      assign FStatus (with_Status StatusFailed) ;;
      assign FPaymentStatus (with_PaymentStatus "failed") ;;
      touch ;;
      Return (Some err)
  | Ok paymentResp => ret paymentResp
  end.

Definition OrderWorkflow (env : Env) (ctx : Context) (order : Order)
  : Wf (option error) unit :=
  (* Initialize workflow state *)
  created <- Now ;;
  modify (set_state
            {| OrderID := ID order;
               Status := StatusPending;
               Stage := StageValidation;
               IsExpedited := false;
               PaymentStatus := "pending";
               LastUpdated := created |}) ;;
  (* Set up signal and query handlers *)
  modify (set_cancelRequested false) ;;
  (* Signal handler for cancellation, on the channel of SignalCancel *)
  Go CancelLoop ;;
  (* Signal handler for expedited processing, on the channel of SignalExpedite *)
  Go ExpediteLoop ;;
  (* Query handler for workflow status *)
  err <- SetQueryHandler env "getStatus" ;;
  match err with
  | Some err => Return (Some err)
  | None => ret tt
  end ;;
  (* Check for cancellation *)
  cancellation_checkpoint ;;
  (* Configure activity options with retry policy *)
  let activityOptions :=
    {| StartToCloseTimeout := 10 * Second;
       ScheduleToStartTimeout := 5 * Second;
       ActivityOptions_RetryPolicy :=
         {| InitialInterval := Second;
            BackoffCoefficient := 2;
            MaximumInterval := 10 * Second;
            MaximumAttempts := 3 |} |} in
  let ctx := WithActivityOptions ctx activityOptions in
  (* Step 1: Validate Order *)
  assign FStatus (with_Status StatusValidating) ;;
  assign FStage (with_Stage StageValidation) ;;
  touch ;;
  r <- ExecuteActivity env ctx (ValidateOrderCall order) AwaitValidateOrder
                       (ValidateOrder_attempt env order) ;;
  validationResp <-
    match r with
    | Fail err =>
        assign FStatus (with_Status StatusFailed) ;;
        touch ;;
        Return (Some err)
    | Ok validationResp => ret validationResp
    end ;;
  (if negb (Valid validationResp) then
     assign FStatus (with_Status StatusFailed) ;;
     touch ;;
     Return (Some (errorString ("order validation failed: "
                                  ++ ValidationResponse_Message validationResp)))
   else ret tt) ;;
  (* Check for cancellation after validation *)
  cancellation_checkpoint ;;
  (* Step 2: Process payment with versioning for backward compatibility *)
  assign FStage (with_Stage StagePayment) ;;
  touch ;;
  version <- GetVersion "payment-processing-change" DefaultVersion 2 ;;
  paymentResp <-
    (if Z.eqb version DefaultVersion
     then payment_via_activity env ctx order
     else payment_via_child env ctx order) ;;
  assign FPaymentStatus (with_PaymentStatus "completed") ;;
  (* Check for cancellation after payment *)
  cancellation_checkpoint ;;
  (* Step 3: Process Order *)
  assign FStatus (with_Status StatusProcessing) ;;
  assign FStage (with_Stage StageProcessing) ;;
  touch ;;
  isExpedited <- read (fun s => IsExpedited (state s)) ;;
  r <- ExecuteActivity env ctx (ProcessOrderCall order isExpedited) AwaitProcessOrder
                       (ProcessOrder_attempt env order isExpedited) ;;
  match r with
  | Fail err =>
      assign FStatus (with_Status StatusFailed) ;;
      touch ;;
      Return (Some err)
  | Ok _ => ret tt
  end ;;
  (* Step 4: Notify completion; a failure is only logged *)
  _ <- ExecuteActivity env ctx (NotifyOrderCompleteCall order) AwaitNotifyOrderComplete
                       (NotifyOrderComplete_attempt env order) ;;
  (* Mark as completed *)
  assign FStatus (with_Status StatusCompleted) ;;
  assign FStage (with_Stage StageCompleted) ;;
  touch ;;
  Return None.

(** One execution of [OrderWorkflow] from the start of the instance to
    the return of the workflow function: the returned error and the
    instance as it is then. *)
Definition execute (env : Env) (order : Order) : option error * Store :=
  match OrderWorkflow env Background order (initial_store env) with
  | (Returned r, s) => (r, emit Completed s)
  | (Next _, s) => (None, emit Completed s)
  end.

Definition outcome (env : Env) (order : Order) : option error := fst (execute env order).
Definition final (env : Env) (order : Order) : Store := snd (execute env order).

End workflows.
Import workflows.

(** ** Bytes, readers and files *)

(** [[]byte]. *)
Definition bytes := list Byte.byte.

(** An [io.Reader] that does not end, such as [rand.Reader]: what reading
    its byte number [n] comes to. *)
Definition Reader := nat -> result Byte.byte.

(** [io.ReadFull(r, buf)] for a buffer of [n] bytes, with [r] at offset
    [off]: the bytes read, or the first error, and the offset [r] is left
    at. *)
Fixpoint ReadFull (r : Reader) (off n : nat) : result bytes * nat :=
  match n with
  | O => (Ok [], off)
  | S n' =>
      match r off with
      | Fail err => (Fail err, off)
      | Ok b =>
          match ReadFull r (S off) n' with
          | (Ok rest, off') => (Ok (b :: rest), off')
          | (Fail err, off') => (Fail err, off')
          end
      end
  end.

(** The files of the working directory: what reading a file comes to, and
    what writing one comes to, which is an error or none, and what reading
    comes to afterwards. *)
Record Files := mkFiles {
  ReadFile : string -> result bytes;
  WriteFile : string -> bytes -> option error * (string -> result bytes)
}.

(** A Go program run to the end of a function, or ended by [log.Fatalf]. *)
Inductive Run (A : Type) : Type :=
| Continues (a : A)
| Exits (msg : string).
Arguments Continues {A} a.
Arguments Exits {A} msg.

(** [os.Getenv]: the value of a variable, empty if it is not set. *)
Definition Getenv (environ : gmap string string) (key : string) : string :=
  default "" (environ !! key).

(** [strconv.Atoi] on a 64-bit platform, the error left out: an optional
    sign and decimal digits, at least one, of a value that fits an [int]. *)
Definition Atoi (s : string) : option Z :=
  let digits s :=
    match s with
    | EmptyString => None
    | _ => option_map Z.of_uint (NilEmpty.uint_of_string s)
    end in
  let int n := if Z.leb (- 2 ^ 63) n && Z.ltb n (2 ^ 63) then Some n else None in
  match s with
  | String "-" rest => match digits rest with Some n => int (- n) | None => None end
  | String "+" rest => match digits rest with Some n => int n | None => None end
  | _ => match digits s with Some n => int n | None => None end
  end.

(** [time.Time.Unix]. *)
Definition Unix (t : Time) : Z := t / Second.

(** ** codec *)
Module codec.

(** MetadataEncodingEncrypted is the encoding type for encrypted payloads *)
Definition MetadataEncodingEncrypted := "binary/encrypted".

(** [commonpb.Payload]. [Metadata] is a Go map, nil ([None]) or not. The
    payloads of a slice are behind pointers, none of them nil. *)
Record Payload := mkPayload {
  Metadata : option (gmap string bytes);
  Data : bytes
}.

(** [string(payload.Metadata[key])]: reading a nil map or a missing key
    gives the empty string. *)
Definition metadata (payload : Payload) (key : string) : string :=
  match Metadata payload with
  | Some m => string_of_list_byte (default [] (m !! key))
  | None => ""
  end.

(** What a payload is after a trip through its wire format: a map without
    entries comes back as nil. *)
Definition wired (payload : Payload) : Payload :=
  match Metadata payload with
  | Some m => if decide (m = ∅) then mkPayload None (Data payload) else payload
  | None => payload
  end.

(** The libraries the codec calls: AES-GCM of [crypto/aes] and
    [crypto/cipher], under a key of 16, 24 or 32 bytes and for a nonce of 12
    bytes, and the wire format of [commonpb.Payload]. Opening what was
    sealed under the same key, nonce and additional data gives the
    plaintext back; unmarshalling what was marshalled gives the payload
    back. *)
Class Libraries := {
  gcm_Seal : bytes -> bytes -> bytes -> bytes -> bytes;
  gcm_Open : bytes -> bytes -> bytes -> bytes -> result bytes;
  Marshal : Payload -> result bytes;
  Unmarshal : bytes -> result Payload;
  gcm_Open_Seal :
    forall key nonce plaintext additionalData,
      In (length key) [16; 24; 32]%nat -> length nonce = 12%nat ->
      gcm_Open key nonce (gcm_Seal key nonce plaintext additionalData) additionalData
      = Ok plaintext;
  Unmarshal_Marshal :
    forall payload origBytes,
      Marshal payload = Ok origBytes -> Unmarshal origBytes = Ok (wired payload)
}.

Section Codec.
Context `{Libraries}.

(** [cipher.Block] of AES: the cipher of a key. *)
Definition Block := bytes.

(** [aes.NewCipher]. *)
Definition aes_NewCipher (key : bytes) : result Block :=
  let k := length key in
  if Nat.eqb k 16 || Nat.eqb k 24 || Nat.eqb k 32 then Ok key
  else Fail (errorString ("crypto/aes: invalid key size " ++ itoa (Z.of_nat k))).

(** [cipher.AEAD]. [Seal] and [Open] append their result to [dst]. *)
Record AEAD := mkAEAD {
  NonceSize : nat;
  Seal : bytes -> bytes -> bytes -> bytes -> bytes;
  Open : bytes -> bytes -> bytes -> bytes -> result bytes
}.

(** [cipher.NewGCM]: it fails for a cipher whose block is not 16 bytes
    only, which that of AES is. *)
Definition cipher_NewGCM (block : Block) : result AEAD :=
  Ok {| NonceSize := 12;
        Seal := fun dst nonce plaintext additionalData =>
                  (dst ++ gcm_Seal block nonce plaintext additionalData)%list;
        Open := fun dst nonce ciphertext additionalData =>
                  match gcm_Open block nonce ciphertext additionalData with
                  | Ok plaintext => Ok (dst ++ plaintext)%list
                  | Fail err => Fail err
                  end |}.

(** EncryptionCodec implements converter.PayloadCodec *)
Record EncryptionCodec := mkEncryptionCodec {
  key : bytes
}.

(** NewEncryptionCodec creates a new encryption codec with the provided
    key *)
Definition NewEncryptionCodec (key : bytes) : result EncryptionCodec :=
  if negb (Nat.eqb (length key) 32) then
    Fail (errorString ("key must be 32 bytes for AES-256, got "
                         ++ itoa (Z.of_nat (length key)) ++ " bytes"))
  else Ok {| key := key |}.

(** encrypt encrypts data using AES-GCM; the nonce is read from
    [rand.Reader], which is at offset [off]. *)
Definition encrypt (e : EncryptionCodec) (rand_Reader : Reader) (plaintext : bytes)
           (off : nat) : result bytes * nat :=
  match aes_NewCipher (key e) with
  | Fail err => (Fail (activities.wrap "failed to create cipher" err), off)
  | Ok block =>
      match cipher_NewGCM block with
      | Fail err => (Fail (activities.wrap "failed to create GCM" err), off)
      | Ok gcm =>
          match ReadFull rand_Reader off (NonceSize gcm) with
          | (Fail err, off) => (Fail (activities.wrap "failed to generate nonce" err), off)
          | (Ok nonce, off) =>
              let ciphertext := Seal gcm nonce nonce plaintext [] in
              (Ok ciphertext, off)
          end
      end
  end.

(** decrypt decrypts data using AES-GCM *)
Definition decrypt (e : EncryptionCodec) (ciphertext : bytes) : result bytes :=
  match aes_NewCipher (key e) with
  | Fail err => Fail (activities.wrap "failed to create cipher" err)
  | Ok block =>
      match cipher_NewGCM block with
      | Fail err => Fail (activities.wrap "failed to create GCM" err)
      | Ok gcm =>
          let nonceSize := NonceSize gcm in
          if Nat.ltb (length ciphertext) nonceSize then
            Fail (errorString "ciphertext too short")
          else
            let nonce := firstn nonceSize ciphertext in
            let ciphertext := skipn nonceSize ciphertext in
            match Open gcm [] nonce ciphertext [] with
            | Fail err => Fail (activities.wrap "failed to decrypt" err)
            | Ok plaintext => Ok plaintext
            end
      end
  end.

(** Encode encrypts the provided payloads: the loop over [payloads], which
    gives up at the first error. *)
Fixpoint Encode (e : EncryptionCodec) (rand_Reader : Reader) (payloads : list Payload)
         (off : nat) : result (list Payload) * nat :=
  match payloads with
  | [] => (Ok [], off)
  | payload :: payloads =>
      (* Skip if already encrypted *)
      if String.eqb (metadata payload "encoding") MetadataEncodingEncrypted then
        match Encode e rand_Reader payloads off with
        | (Ok result, off) => (Ok (payload :: result), off)
        | (Fail err, off) => (Fail err, off)
        end
      else
        (* Marshal the entire payload (including metadata) to bytes *)
        match Marshal payload with
        | Fail err => (Fail (activities.wrap "failed to marshal payload" err), off)
        | Ok origBytes =>
            (* Encrypt the marshaled payload *)
            match encrypt e rand_Reader origBytes off with
            | (Fail err, off) => (Fail (activities.wrap "failed to encrypt payload" err), off)
            | (Ok encrypted, off) =>
                (* Create new payload with encrypted data *)
                let new :=
                  {| Metadata :=
                       Some {[ "encoding" := list_byte_of_string MetadataEncodingEncrypted ]};
                     Data := encrypted |} in
                match Encode e rand_Reader payloads off with
                | (Ok result, off) => (Ok (new :: result), off)
                | (Fail err, off) => (Fail err, off)
                end
            end
        end
  end.

(** Decode decrypts the provided payloads *)
Fixpoint Decode (e : EncryptionCodec) (payloads : list Payload) : result (list Payload) :=
  match payloads with
  | [] => Ok []
  | payload :: payloads =>
      (* Skip if not encrypted *)
      if negb (String.eqb (metadata payload "encoding") MetadataEncodingEncrypted) then
        match Decode e payloads with
        | Ok result => Ok (payload :: result)
        | Fail err => Fail err
        end
      else
        (* Decrypt the data *)
        match decrypt e (Data payload) with
        | Fail err => Fail (activities.wrap "failed to decrypt payload" err)
        | Ok decrypted =>
            (* Unmarshal the decrypted bytes back to a Payload *)
            match Unmarshal decrypted with
            | Fail err => Fail (activities.wrap "failed to unmarshal decrypted payload" err)
            | Ok new =>
                match Decode e payloads with
                | Ok result => Ok (new :: result)
                | Fail err => Fail err
                end
            end
        end
  end.

(** [converter.NewCodecDataConverter(converter.GetDefaultDataConverter(),
    codec)]: the default converter with the codec around it. *)
Record CodecDataConverter := mkCodecDataConverter {
  codecs : list EncryptionCodec
}.

(** NewEncryptionDataConverter creates a data converter with encryption
    codec *)
Definition NewEncryptionDataConverter (key : bytes) : result CodecDataConverter :=
  match NewEncryptionCodec key with
  | Fail err => Fail err
  | Ok codec => Ok {| codecs := [codec] |}
  end.

End Codec.
End codec.

(** ** worker/main.go *)
Module worker.

Definition taskQueue := "order-processing-queue".

Definition getEnv (environ : gmap string string) (key defaultValue : string) : string :=
  let value := Getenv environ key in
  if negb (String.eqb value "") then value else defaultValue.

Definition getEnvAsInt (environ : gmap string string) (key : string) (defaultValue : Z)
  : Z :=
  let value := Getenv environ key in
  if negb (String.eqb value "") then
    match Atoi value with
    | Some intVal => intVal
    | None => defaultValue
    end
  else defaultValue.

(** [generateOrGetEncryptionKey]: the key, and what reading the files comes
    to afterwards. *)
Definition generateOrGetEncryptionKey (files : Files) (rand_Reader : Reader)
  : Run (bytes * (string -> result bytes)) :=
  let keyFile := ".encryption.key" in
  let generate :=
    (* Generate new key *)
    match fst (ReadFull rand_Reader 0 32) with
    | Fail err => Exits ("Failed to generate encryption key: " ++ Error err)
    | Ok key =>
        (* Save key for future use; a failure is only logged *)
        Continues (key, snd (WriteFile files keyFile key))
    end in
  (* Try to read existing key *)
  match ReadFile files keyFile with
  | Ok key => if Nat.eqb (length key) 32 then Continues (key, ReadFile files) else generate
  | Fail _ => generate
  end.

(** [client.Options], as far as [main] sets them. *)
Record Options := mkOptions {
  HostPort : string;
  DataConverter : option codec.CodecDataConverter
}.

(** The part of [main] that makes the options of the client. *)
Definition clientOptions (environ : gmap string string) (files : Files)
           (rand_Reader : Reader) : Run (Options * (string -> result bytes)) :=
  (* Get configuration from environment variables *)
  let temporalHost := getEnv environ "TEMPORAL_HOST" "localhost:7233" in
  let encryptionEnabled :=
    String.eqb (getEnv environ "ENCRYPTION_ENABLED" "false") "true" in
  (* Enable encryption if configured *)
  if encryptionEnabled then
    match generateOrGetEncryptionKey files rand_Reader with
    | Exits msg => Exits msg
    | Continues (encryptionKey, files') =>
        match codec.NewEncryptionDataConverter encryptionKey with
        | Fail err =>
            Exits ("Failed to create encryption data converter: " ++ Error err)
        | Ok dataConverter =>
            Continues ({| HostPort := temporalHost; DataConverter := Some dataConverter |},
                       files')
        end
    end
  else Continues ({| HostPort := temporalHost; DataConverter := None |}, ReadFile files).

End worker.

(** ** starter/main.go *)
Module starter.

Definition taskQueue := "order-processing-queue".

Definition loadEncryptionKey (files : Files) (rand_Reader : Reader)
  : Run (bytes * (string -> result bytes)) :=
  let keyFile := ".encryption.key" in
  let generate :=
    (* Generate new key if not found *)
    match fst (ReadFull rand_Reader 0 32) with
    | Fail err => Exits ("Failed to generate encryption key: " ++ Error err)
    | Ok key =>
        (* Save key for future use; a failure is only logged *)
        Continues (key, snd (WriteFile files keyFile key))
    end in
  (* Try to read existing key *)
  match ReadFile files keyFile with
  | Ok key => if Nat.eqb (length key) 32 then Continues (key, ReadFile files) else generate
  | Fail _ => generate
  end.

(** [client.StartWorkflowOptions], as far as [startWorkflow] sets them. *)
Record StartWorkflowOptions := mkStartWorkflowOptions {
  StartWorkflowOptions_ID : string;
  TaskQueue : string
}.

(** What [startWorkflow] hands to [c.ExecuteWorkflow]. *)
Record Start := mkStart {
  options : StartWorkflowOptions;
  workflow : string;
  order : Order
}.

(** The quote character of a JSON string. *)
Definition quote : string := String (ascii_of_nat 34) EmptyString.

(** A string of printable ASCII characters without quote and backslash:
    what a JSON string holds without an escape. *)
Fixpoint plain (s : string) : bool :=
  match s with
  | EmptyString => true
  | String c rest =>
      Nat.leb 32 (nat_of_ascii c) && Nat.leb (nat_of_ascii c) 126
      && negb (Nat.eqb (nat_of_ascii c) 34) && negb (Nat.eqb (nat_of_ascii c) 92)
      && plain rest
  end.

(** [json.Unmarshal(data, &items)] of [encoding/json] for a slice of
    strings: the slice afterwards and the error. Of an array of one string
    without escapes it makes that string. *)
Class Json := {
  json_Unmarshal : string -> list string -> list string * option error;
  json_Unmarshal_plain :
    forall s items,
      plain s = true ->
      json_Unmarshal ("[" ++ quote ++ s ++ quote ++ "]") items = ([s], None)
}.

(** [startWorkflow], up to the call of [c.ExecuteWorkflow]; [now] gives the
    readings of [time.Now()], in their order. The workflow is handed over
    as the function [workflows.OrderWorkflow], which the engine knows by the
    name of the function. The error of [json.Unmarshal] is dropped. *)
Definition startWorkflow `{Json} (now : nat -> Time) (orderID : string)
           (amount : float64) (itemsStr : string) : Start :=
  (* Generate order ID if not provided *)
  let (orderID, readings) :=
    if String.eqb orderID ""
    then ("ORD-" ++ itoa (Unix (now 0%nat)), 1%nat)
    else (orderID, 0%nat) in
  (* Parse items *)
  let items := [] in
  let items :=
    if negb (String.eqb itemsStr "")
    then fst (json_Unmarshal ("[" ++ quote ++ itemsStr ++ quote ++ "]") items)
    else items in
  (* Create order *)
  let order :=
    {| ID := orderID;
       Items := items;
       Amount := amount;
       Order_Status := StatusPending;
       CreatedAt := now readings |} in
  (* Workflow options *)
  let workflowOptions :=
    {| StartWorkflowOptions_ID := "order-workflow-" ++ ID order;
       TaskQueue := taskQueue |} in
  {| options := workflowOptions; workflow := "OrderWorkflow"; order := order |}.

End starter.

(** ** Stand-ins for the libraries of the codec and of the starter, for examples *)
Module mock.

#[export] Instance byte_eq_dec : EqDecision Byte.byte := Byte.byte_eq_dec.

#[export] Instance byte_countable : Countable Byte.byte :=
  inj_countable Byte.to_N Byte.of_N Byte.of_to_N.

#[export] Instance Payload_eq_dec : EqDecision codec.Payload.
Proof. solve_decision. Defined.

#[export] Instance Payload_countable : Countable codec.Payload :=
  inj_countable' (fun payload => (codec.Metadata payload, codec.Data payload))
                 (fun x => codec.mkPayload (fst x) (snd x))
                 (fun payload => match payload with codec.mkPayload _ _ => eq_refl end).

(** The tag of a sealed message: the first 16 bytes of the key. *)
Definition tag (key : bytes) : bytes := firstn 16 (key ++ repeat Byte.x00 16)%list.

Definition Seal (key nonce plaintext additionalData : bytes) : bytes :=
  (plaintext ++ tag key)%list.

Definition Open (key nonce ciphertext additionalData : bytes) : result bytes :=
  let n := (length ciphertext - 16)%nat in
  if decide (skipn n ciphertext = tag key) then Ok (firstn n ciphertext)
  else Fail (errorString "cipher: message authentication failed").

Fixpoint bytes_of_positive (p : positive) : bytes :=
  match p with
  | xH => []
  | xO q => Byte.x00 :: bytes_of_positive q
  | xI q => Byte.x01 :: bytes_of_positive q
  end.

Fixpoint positive_of_bytes (b : bytes) : positive :=
  match b with
  | [] => xH
  | Byte.x00 :: rest => xO (positive_of_bytes rest)
  | _ :: rest => xI (positive_of_bytes rest)
  end.

Definition Marshal (payload : codec.Payload) : result bytes :=
  Ok (bytes_of_positive (encode (codec.wired payload))).

Definition Unmarshal (data : bytes) : result codec.Payload :=
  match decode (positive_of_bytes data) with
  | Some payload => Ok payload
  | None => Fail (errorString "proto: cannot parse invalid wire-format data")
  end.

(** A string without its last two characters. *)
Fixpoint chop (s : string) : string :=
  match s with
  | String c rest =>
      match rest with
      | String _ EmptyString => EmptyString
      | _ => String c (chop rest)
      end
  | EmptyString => EmptyString
  end.

(** The text between the first two and the last two characters. *)
Definition json_Unmarshal (data : string) (items : list string)
  : list string * option error :=
  match data with
  | String _ (String _ inner) => ([chop inner], None)
  | _ => (items, Some (errorString "unexpected end of JSON input"))
  end.

End mock.

Local Open Scope list_scope.

(** ** Properties of executions *)

Definition payment_change : string := "payment-processing-change".

(** The retry policy every step of the saga runs under. *)
Definition stepPolicy : RetryPolicy :=
  {| InitialInterval := Second;
     BackoffCoefficient := 2;
     MaximumInterval := 10 * Second;
     MaximumAttempts := 3 |}.

(** What can be read off a trace. *)
Definition validation_invoked (order : Order) (tr : list Event) : Prop :=
  In (Invoke (ValidateOrderCall order)) tr.
Definition payment_activity_invoked (tr : list Event) : Prop :=
  exists paymentReq, In (Invoke (ProcessPaymentCall paymentReq)) tr.
Definition payment_child_started (tr : list Event) : Prop :=
  exists workflowID workflowType order, In (StartChild workflowID workflowType order) tr.
Definition payment_invoked (tr : list Event) : Prop :=
  payment_activity_invoked tr \/ payment_child_started tr.
Definition fulfilment_invoked (tr : list Event) : Prop :=
  exists order isExpedited, In (Invoke (ProcessOrderCall order isExpedited)) tr.
Definition notification_invoked (tr : list Event) : Prop :=
  exists order, In (Invoke (NotifyOrderCompleteCall order)) tr.

(** The payment branch that was taken came back with the error [e]. *)
Definition payment_failed_with (e : error) (tr : list Event) : Prop :=
  (exists paymentReq waits, In (Settled (ProcessPaymentCall paymentReq) waits (Some e)) tr)
  \/ (exists workflowID, In (ChildClosed workflowID (Some e)) tr).

(** In a trace (newest first): is there a mutation of the projection that
    no timestamp update has followed yet? *)
Fixpoint unstamped (log : list Event) : bool :=
  match log with
  | [] => false
  | Assign _ :: _ => true
  | Stamp :: _ => false
  | _ :: older => unstamped older
  end.

(** Between a mutation and the timestamp update that follows it there are
    only further mutations: whenever anything else happens (a step is
    invoked or settles, a coroutine suspends, the workflow function
    returns), no mutation is waiting for its timestamp. *)
Fixpoint stamped (log : list Event) : bool :=
  match log with
  | [] => true
  | Assign _ :: older => stamped older
  | Stamp :: older => stamped older
  | _ :: older => negb (unstamped older) && stamped older
  end.

(** A trace beside what was observed at its events (both newest first;
    [later] is the workflow clock after the newest event). At a timestamp
    update the projection has the workflow clock of that moment in
    LastUpdated; and the clock does not move between a mutation and the
    event that follows it, so that the timestamp written after a mutation is
    the time of the mutation. *)
Fixpoint timestamped (later : Time) (log : list Event)
         (seen : list (OrderStatus * Time)) : bool :=
  match log, seen with
  | [], [] => true
  | e :: log, (projection, clock) :: seen =>
      match e with
      | Stamp => Z.eqb (LastUpdated projection) clock
      | Assign _ => Z.eqb clock later
      | _ => true
      end && timestamped clock log seen
  | _, _ => false
  end.

(** Signals by name. *)
Definition received (name : string) (names : list string) : bool :=
  existsb (fun n => String.eqb n name) names.

Definition received_during (env : Env) (step : Step) (name : string) : bool :=
  received name (map fst (signals_during env step)).

(** An expedite signal was handled before the fulfilment step starts: it was
    waiting when the instance started, or it arrived while validation or
    payment was awaited. *)
Definition expedited_before_fulfilment (env : Env) : bool :=
  received SignalExpedite (buffered_signals env)
  || received_during env AwaitValidateOrder SignalExpedite
  || received_during env AwaitPayment SignalExpedite.


(** The request [ValidateOrder] posts for an order. *)
Definition validationReq_of (order : Order) : ValidationRequest :=
  {| ValidationRequest_OrderID := ID order;
     ValidationRequest_Amount := Amount order;
     ValidationRequest_Items := Items order |}.

(** The request both payment branches build from the order. *)
Definition paymentReq_of (order : Order) : PaymentRequest :=
  {| PaymentRequest_OrderID := ID order;
     PaymentRequest_Amount := Amount order |}.

(** The environment of a replay that differs in one component. *)
Definition with_markers (m : gmap string Z) (env : Env) : Env :=
  mkEnv (started_at env) (buffered_signals env) m (SetQueryHandler_result env)
        (signals_during env) (resumed_at env) (validation_attempt env)
        (payment_attempt env) (fulfilment_attempt env) (notification_attempt env).

Definition with_notification (f : nat -> Attempt unit) (env : Env) : Env :=
  mkEnv (started_at env) (buffered_signals env) (history_markers env)
        (SetQueryHandler_result env) (signals_during env) (resumed_at env)
        (validation_attempt env) (payment_attempt env) (fulfilment_attempt env) f.

(** Two instances that differ at most in their traces. *)
Definition forget_trace (s : Store) : Store :=
  mkStore (state s) (cancelRequested s) (now s) (cancelChannel s) (expediteChannel s)
          (coroutines s) (queryHandlers s) (markers s) [] (observed s).

Definition same_but_trace (s s' : Store) : Prop := forget_trace s = forget_trace s'.

(** What running the signal handlers does to an instance. [c] and [e] tell
    whether a cancel and an expedite signal were consumed. The handlers only
    add events that are [quiet], in blocks that are [tidy]. *)
Definition quiet (e : Event) : Prop :=
  match e with
  | Assign FIsExpedited | Stamp | Suspend _ => True
  | _ => False
  end.

Definition tidy (ext : list Event) : Prop :=
  forall l, unstamped l = false -> stamped l = true ->
            unstamped (ext ++ l) = false /\ stamped (ext ++ l) = true.

Record handled (c e : bool) (s s' : Store) : Prop := mkHandled {
  h_OrderID : OrderID (state s') = OrderID (state s);
  h_Status : Status (state s') = Status (state s);
  h_Stage : Stage (state s') = Stage (state s);
  h_PaymentStatus : PaymentStatus (state s') = PaymentStatus (state s);
  h_IsExpedited : IsExpedited (state s') = IsExpedited (state s) || e;
  h_cancelRequested : cancelRequested s' = cancelRequested s || c;
  h_coroutines : coroutines s' = coroutines s;
  h_queryHandlers : queryHandlers s' = queryHandlers s;
  h_markers : markers s' = markers s;
  h_trace : exists ext, trace s' = ext ++ trace s /\ Forall quiet ext /\ tidy ext
}.

(** A block of events and what was observed at them, that can be put on top
    of a trace whose newest event is not a mutation. *)
Definition timely (ext : list Event) (seen : list (OrderStatus * Time)) : Prop :=
  forall later rest rest_seen,
    (forall t, timestamped t rest rest_seen = true) ->
    timestamped later (ext ++ rest) (seen ++ rest_seen) = true.

(** From [s] to [s'] only such blocks were added. *)
Definition observes (s s' : Store) : Prop :=
  exists ext seen,
    trace s' = ext ++ trace s /\ observed s' = seen ++ observed s /\ timely ext seen.

Definition drained (s : Store) : Prop :=
  cancelChannel s = 0%nat /\ expediteChannel s = 0%nat.

Definition handlers : list Coroutine := [CancelLoop; ExpediteLoop].

(** *** Concrete executions *)

Definition order1 : Order :=
  {| ID := "ORD-1"; Items := ["a"; "b"]; Amount := 4636737291354636288;
     Order_Status := StatusPending; CreatedAt := 0 |}.

Definition order2 : Order :=
  {| ID := "ORD-2"; Items := []; Amount := 4669471951536783360;
     Order_Status := StatusPending; CreatedAt := 0 |}.

Definition accepted : activities.HTTPExchange :=
  activities.Response 200 "{valid:true}"
    (Ok {| Valid := true; ValidationResponse_Message := "Order validated successfully" |}).

Definition rejected : activities.HTTPExchange :=
  activities.Response 200 "{valid:false}"
    (Ok {| Valid := false; ValidationResponse_Message := "Amount exceeds maximum allowed" |}).

Definition unavailable : activities.HTTPExchange :=
  activities.Response 500 "Internal Server Error" (Fail (errorString "unexpected end of JSON input")).

Definition paid1 : PaymentResponse := fst (activities.ProcessPayment 1700000000
  {| PaymentRequest_OrderID := "ORD-1"; PaymentRequest_Amount := Amount order1 |}).

(** A run in which every collaborator answers well and no signal is sent. *)
Definition healthy : Env :=
  {| started_at := 100;
     buffered_signals := [];
     history_markers := ∅;
     SetQueryHandler_result := None;
     signals_during := fun _ => [];
     resumed_at := fun step =>
       match step with
       | AwaitValidateOrder => 200
       | AwaitPayment => 300
       | AwaitProcessOrder => 400
       | AwaitNotifyOrderComplete => 500
       end;
     validation_attempt := fun _ => Ran (fun _ => accepted);
     payment_attempt := fun _ _ => Ran 1700000000;
     fulfilment_attempt := fun _ => Ran None;
     notification_attempt := fun _ => Ran tt |}.

Definition with_buffered_signals (l : list string) (env : Env) : Env :=
  mkEnv (started_at env) l (history_markers env) (SetQueryHandler_result env)
        (signals_during env) (resumed_at env) (validation_attempt env)
        (payment_attempt env) (fulfilment_attempt env) (notification_attempt env).

Definition with_signals_during (f : Step -> list (string * Time)) (env : Env) : Env :=
  mkEnv (started_at env) (buffered_signals env) (history_markers env)
        (SetQueryHandler_result env) f (resumed_at env) (validation_attempt env)
        (payment_attempt env) (fulfilment_attempt env) (notification_attempt env).

Definition with_validation
           (f : nat -> Attempt (ValidationRequest -> activities.HTTPExchange))
           (env : Env) : Env :=
  mkEnv (started_at env) (buffered_signals env) (history_markers env)
        (SetQueryHandler_result env) (signals_during env) (resumed_at env) f
        (payment_attempt env) (fulfilment_attempt env) (notification_attempt env).

Definition with_payment (f : nat -> nat -> Attempt Z) (env : Env) : Env :=
  mkEnv (started_at env) (buffered_signals env) (history_markers env)
        (SetQueryHandler_result env) (signals_during env) (resumed_at env)
        (validation_attempt env) f (fulfilment_attempt env) (notification_attempt env).

(** The same world, except for what arrives once the fulfilment step has
    started. *)
Definition late_signals (during_fulfilment during_notification : list (string * Time))
           (env : Env) : Env :=
  with_signals_during
    (fun step =>
       match step with
       | AwaitProcessOrder => during_fulfilment
       | AwaitNotifyOrderComplete => during_notification
       | _ => signals_during env step
       end) env.

(** A cancel signal is sent before the first task of the instance. *)
Definition cancelled_early : Env := with_buffered_signals [SignalCancel] healthy.

(** The validation service rejects the order, or cannot be reached. *)
Definition rejecting : Env := with_validation (fun _ => Ran (fun _ => rejected)) healthy.
Definition cancelled_early_rejecting : Env :=
  with_validation (fun _ => Ran (fun _ => rejected)) cancelled_early.

(** Every attempt of the payment step runs into its timeout. *)
Definition unpaid : Env :=
  with_payment (fun _ _ => Lost (errorString "activity StartToClose timeout")) healthy.

(** An instance whose history has the legacy branch recorded. *)
Definition legacy : Env := with_markers {[ payment_change := DefaultVersion ]} healthy.

(** An expedite signal arrives while validation is awaited; or only while
    the fulfilment step runs. *)
Definition expedited_early : Env :=
  with_signals_during
    (fun step =>
       match step with
       | AwaitValidateOrder => [(SignalExpedite, 150)]
       | _ => []
       end) healthy.

Definition expedited_late : Env :=
  late_signals [(SignalExpedite, 350)] [] healthy.

(** Every attempt of the notification step runs into its timeout. *)
Definition unnotified : Env :=
  with_notification (fun _ => Lost (errorString "activity StartToClose timeout")) healthy.

(** The context [OrderWorkflow] runs its steps under. *)
Definition stepContext : Context :=
  WithActivityOptions Background
    {| StartToCloseTimeout := 10 * Second;
       ScheduleToStartTimeout := 5 * Second;
       ActivityOptions_RetryPolicy := stepPolicy |}.

(** The number of signals called [name] among [names]. *)
Fixpoint count (name : string) (names : list string) : nat :=
  match names with
  | [] => 0%nat
  | n :: rest => ((if String.eqb n name then 1 else 0) + count name rest)%nat
  end.

(** *** Endings, steps and further worlds *)

(** How a saga ends: status, stage and payment status of the projection,
    and whether the workflow function returned an error. *)
Definition ending (env : Env) (order : Order) : string * string * string * bool :=
  (Status (state (final env order)),
   Stage (state (final env order)),
   PaymentStatus (state (final env order)),
   match outcome env order with Some _ => true | None => false end).

Definition endings : list (string * string * string * bool) :=
  [ (StatusFailed, StageValidation, "pending", true);
    (StatusCancelled, StageValidation, "pending", false);
    (StatusFailed, StagePayment, "failed", true);
    (StatusCancelled, StagePayment, "completed", false);
    (StatusFailed, StageProcessing, "completed", true);
    (StatusCompleted, StageCompleted, "completed", false) ].

(** The step an event starts, if it starts one. *)
Definition starts (e : Event) : option Step :=
  match e with
  | Invoke (ValidateOrderCall _) => Some AwaitValidateOrder
  | Invoke (ProcessPaymentCall _) | StartChild _ _ _ => Some AwaitPayment
  | Invoke (ProcessOrderCall _ _) => Some AwaitProcessOrder
  | Invoke (NotifyOrderCompleteCall _) => Some AwaitNotifyOrderComplete
  | _ => None
  end.

(** The steps started in a trace, newest first like the trace. *)
Fixpoint steps_started (log : list Event) : list Step :=
  match log with
  | [] => []
  | e :: older =>
      match starts e with
      | Some step => step :: steps_started older
      | None => steps_started older
      end
  end.

Definition saga : list Step :=
  [AwaitValidateOrder; AwaitPayment; AwaitProcessOrder; AwaitNotifyOrderComplete].

(** A cancel signal was handled before the fulfilment step starts. *)
Definition cancelled_before_fulfilment (env : Env) : bool :=
  received SignalCancel (buffered_signals env)
  || received_during env AwaitValidateOrder SignalCancel
  || received_during env AwaitPayment SignalCancel.

(** An expedite signal was handled at some suspension of the saga. *)
Definition expedite_received (env : Env) : bool :=
  received SignalExpedite (buffered_signals env)
  || received_during env AwaitValidateOrder SignalExpedite
  || received_during env AwaitPayment SignalExpedite
  || received_during env AwaitProcessOrder SignalExpedite
  || received_during env AwaitNotifyOrderComplete SignalExpedite.

(** The payment branch that was taken came back without an error. *)
Definition payment_settled (tr : list Event) : Prop :=
  (exists paymentReq waits, In (Settled (ProcessPaymentCall paymentReq) waits None) tr)
  \/ (exists workflowID, In (ChildClosed workflowID None) tr).

(** Some attempt of the payment activity in run [run] of the child is not
    lost, among the three its retry policy allows; the direct activity has
    the attempts of run 0. *)
Definition payment_runs (env : Env) (run : nat) : Prop :=
  exists n unix, (n < 3)%nat /\ payment_attempt env run n = Ran unix.

(** Every attempt of the fulfilment step has its context done after
    [after], with 1s <= after < 2s. *)
Definition hurried (env : Env) : Prop :=
  forall n, exists after err,
      fulfilment_attempt env n = Ran (Some (after, err))
      /\ 1 * Second <= after < 2 * Second.

Definition with_fulfilment (f : nat -> Attempt (option (Duration * error))) (env : Env) : Env :=
  mkEnv (started_at env) (buffered_signals env) (history_markers env)
        (SetQueryHandler_result env) (signals_during env) (resumed_at env)
        (validation_attempt env) (payment_attempt env) f (notification_attempt env).

Definition with_SetQueryHandler_result (r : option error) (env : Env) : Env :=
  mkEnv (started_at env) (buffered_signals env) (history_markers env) r
        (signals_during env) (resumed_at env) (validation_attempt env)
        (payment_attempt env) (fulfilment_attempt env) (notification_attempt env).

(** A cancel signal arrives while the payment is awaited. *)
Definition cancelled_late : Env :=
  with_signals_during
    (fun step =>
       match step with
       | AwaitPayment => [(SignalCancel, 250)]
       | _ => []
       end) healthy.

(** The worker is stopped 1.5 s into every attempt of the fulfilment step;
    the same with an expedite signal sent during validation. *)
Definition unfulfilled : Env :=
  with_fulfilment (fun _ => Ran (Some (1500000000, errorString "context canceled"))) healthy.

Definition unfulfilled_expedited : Env :=
  with_fulfilment (fun _ => Ran (Some (1500000000, errorString "context canceled")))
                  expedited_early.

(** The engine refuses the query handler, a cancel signal waiting. *)
Definition unqueryable : Env :=
  with_SetQueryHandler_result (Some (errorString "query handler refused")) cancelled_early.

(** The payment is lost eight times and runs at the ninth attempt, the
    third of the third run of the child. *)
Definition flaky : Env :=
  with_payment
    (fun run n =>
       if Nat.eqb run 2 && Nat.eqb n 2 then Ran 1700000000
       else Lost (errorString "activity StartToClose timeout"))
    healthy.

(** Strings of decimal digits. *)
Definition is_digit (c : ascii) : bool :=
  (48 <=? nat_of_ascii c)%nat && (nat_of_ascii c <=? 57)%nat.

Fixpoint digits (s : string) : bool :=
  match s with
  | EmptyString => true
  | String c rest => is_digit c && digits rest
  end.

(** *** Payloads *)

(** A payload that says it is encrypted. *)
Definition labelled (payload : codec.Payload) : bool :=
  String.eqb (codec.metadata payload "encoding") codec.MetadataEncodingEncrypted.

(** The payloads of a batch that [Encode] has to encrypt. *)
Fixpoint unlabelled (payloads : list codec.Payload) : nat :=
  match payloads with
  | [] => 0
  | payload :: payloads =>
      ((if labelled payload then 0 else 1) + unlabelled payloads)%nat
  end.

(** What the default converter makes of a value: plain JSON. *)
Definition json_plain (data : string) : codec.Payload :=
  {| codec.Metadata := Some {[ "encoding" := list_byte_of_string "json/plain" ]};
     codec.Data := list_byte_of_string data |}.

(** A key of 32 bytes, a random source that gives a byte over and over,
    and one that fails. *)
Definition key32 : bytes := repeat Byte.x2a 32.
Definition steady : Reader := fun _ => Ok Byte.x07.
Definition broken : Reader := fun _ => Fail (errorString "entropy source unavailable").

(** A working directory without a key file, where files can be written; one
    where they cannot; and one with a key file of 33 bytes. *)
Definition writable (files : string -> result bytes) : Files :=
  {| ReadFile := files;
     WriteFile := fun name data =>
       (None, fun n => if String.eqb n name then Ok data else files n) |}.

Definition read_only (files : string -> result bytes) : Files :=
  {| ReadFile := files;
     WriteFile := fun name data => (Some (errorString "read-only file system"), files) |}.

Definition no_files : string -> result bytes :=
  fun name => Fail (errorString ("open " ++ name ++ ": no such file or directory")%string).

Definition long_key_file : string -> result bytes :=
  fun name =>
    if String.eqb name ".encryption.key" then Ok (repeat Byte.x2a 32 ++ [Byte.x0a])
    else no_files name.

(** ** The engine *)

Lemma attempts_first_ok {A : Type} (p : RetryPolicy) (step : nat -> result A)
      (left n : nat) (a : A) :
  step n = Ok a -> attempts p step left n = ([], Ok a).
Proof. intros H. destruct left; cbn; rewrite H; reflexivity. Qed.

Lemma attempts_constant {A : Type} (p : RetryPolicy) (step : nat -> result A)
      (r : result A) :
  (forall n, step n = r) -> forall left n, snd (attempts p step left n) = r.
Proof.
  intros Hr left. induction left as [|left IH]; intros n; cbn.
  - rewrite Hr. destruct r; reflexivity.
  - rewrite Hr. destruct r as [a|e]; [reflexivity|].
    specialize (IH (S n)). destruct (attempts p step left (S n)); exact IH.
Qed.

Lemma attempts_ok_inv {A : Type} (p : RetryPolicy) (step : nat -> result A)
      (left : nat) :
  forall n w a, attempts p step left n = (w, Ok a) -> exists k, step k = Ok a.
Proof.
  induction left as [|left IH]; intros n w a; cbn; destruct (step n) eqn:E; intros H.
  - injection H as; subst. eauto.
  - discriminate H.
  - injection H as; subst. eauto.
  - destruct (attempts p step left (S n)) as [w' r'] eqn:E'.
    injection H as; subst. eapply IH. exact E'.
Qed.

Lemma StepExecutor_ok_inv {A : Type} (p : RetryPolicy) (step : nat -> result A)
      (w : list Duration) (a : A) :
  StepExecutor p step = (w, Ok a) -> exists k, step k = Ok a.
Proof. apply attempts_ok_inv. Qed.

Lemma resolve_fresh (m : gmap string Z) (changeID : string) (d latest : Z) :
  m !! changeID = None ->
  resolve m changeID d latest = (latest, <[changeID := latest]> m).
Proof. intros H. unfold resolve. rewrite H. reflexivity. Qed.

Lemma resolve_recorded (m : gmap string Z) (changeID : string) (d latest v : Z) :
  m !! changeID = Some v -> resolve m changeID d latest = (v, m).
Proof. intros H. unfold resolve. rewrite H. reflexivity. Qed.

(** ** Signal handlers *)

Lemma tidy_nil : tidy [].
Proof. intros l Hu Hs. split; assumption. Qed.

Lemma tidy_app (ext1 ext2 : list Event) : tidy ext1 -> tidy ext2 -> tidy (ext2 ++ ext1).
Proof.
  intros H1 H2 l Hu Hs. rewrite <- app_assoc.
  destruct (H1 l Hu Hs) as [Hu1 Hs1]. exact (H2 _ Hu1 Hs1).
Qed.

Lemma tidy_suspend (c : Coroutine) : tidy [Suspend c].
Proof. intros l Hu Hs. cbn. rewrite Hu, Hs. split; reflexivity. Qed.

Lemma tidy_expedite : tidy [Stamp; Assign FIsExpedited].
Proof. intros l Hu Hs. cbn. split; [reflexivity | exact Hs]. Qed.

Lemma handled_refl (s : Store) : handled false false s s.
Proof.
  constructor; try reflexivity; try (symmetry; apply orb_false_r).
  exists []. split; [reflexivity | split; [constructor | apply tidy_nil]].
Qed.

Lemma handled_trans (c1 e1 c2 e2 : bool) (s s' s'' : Store) :
  handled c1 e1 s s' -> handled c2 e2 s' s'' ->
  handled (c1 || c2) (e1 || e2) s s''.
Proof.
  intros [A1 A2 A3 A4 A5 A6 A7 A8 A9 (x1 & T1 & Q1 & D1)]
         [B1 B2 B3 B4 B5 B6 B7 B8 B9 (x2 & T2 & Q2 & D2)].
  constructor; try congruence.
  - rewrite B5, A5. symmetry. apply orb_assoc.
  - rewrite B6, A6. symmetry. apply orb_assoc.
  - exists (x2 ++ x1). split; [|split].
    + rewrite T2, T1. apply app_assoc.
    + apply Forall_app. split; assumption.
    + apply tidy_app; assumption.
Qed.

Lemma cancel_loop_handled (n : nat) :
  forall s, handled (0 <? n)%nat false s (cancel_loop n s).
Proof.
  induction n as [|n IH]; intros s; cbn [cancel_loop].
  - constructor; cbn; try reflexivity; try (symmetry; apply orb_false_r).
    exists [Suspend CancelLoop]. split; [reflexivity|].
    split; [repeat constructor | apply tidy_suspend].
  - change (0 <? S n)%nat with (true || (0 <? n)%nat).
    change false with (false || false) at 1.
    eapply handled_trans; [|apply IH].
    constructor; cbn; try reflexivity; try (symmetry; apply orb_false_r).
    + symmetry. apply orb_true_r.
    + exists []. split; [reflexivity | split; [constructor | apply tidy_nil]].
Qed.

Lemma cancel_loop_channels (n : nat) :
  forall s, cancelChannel (cancel_loop n s) = match n with O => cancelChannel s | S _ => O end
            /\ expediteChannel (cancel_loop n s) = expediteChannel s.
Proof.
  induction n as [|n IH]; intros s; cbn [cancel_loop].
  - split; reflexivity.
  - destruct (IH (set_cancelRequested true (set_cancelChannel n s))) as [Hc He].
    rewrite Hc, He. split; [destruct n|]; reflexivity.
Qed.

Lemma expedite_loop_handled (n : nat) :
  forall s, handled false (0 <? n)%nat s (expedite_loop n s).
Proof.
  induction n as [|n IH]; intros s; cbn [expedite_loop].
  - constructor; cbn; try reflexivity; try (symmetry; apply orb_false_r).
    exists [Suspend ExpediteLoop]. split; [reflexivity|].
    split; [repeat constructor | apply tidy_suspend].
  - change (0 <? S n)%nat with (true || (0 <? n)%nat).
    change false with (false || false) at 1.
    eapply handled_trans; [|apply IH].
    constructor; cbn; try reflexivity; try (symmetry; apply orb_false_r).
    + symmetry. apply orb_true_r.
    + exists [Stamp; Assign FIsExpedited]. split; [reflexivity|].
      split; [repeat constructor | apply tidy_expedite].
Qed.

Lemma expedite_loop_channels (n : nat) :
  forall s, expediteChannel (expedite_loop n s)
            = match n with O => expediteChannel s | S _ => O end
            /\ cancelChannel (expedite_loop n s) = cancelChannel s.
Proof.
  induction n as [|n IH]; intros s; cbn [expedite_loop].
  - split; reflexivity.
  - match goal with |- context [expedite_loop n ?s1] => destruct (IH s1) as [He Hc] end.
    rewrite He, Hc. split; [destruct n|]; reflexivity.
Qed.

Lemma dispatch_handled (s : Store) :
  coroutines s = handlers ->
  handled (0 <? cancelChannel s)%nat (0 <? expediteChannel s)%nat s (dispatch s)
  /\ drained (dispatch s).
Proof.
  intros Hco. unfold dispatch. rewrite Hco. cbn [handlers fold_left resume].
  pose proof (cancel_loop_handled (cancelChannel s) s) as H1.
  destruct (cancel_loop_channels (cancelChannel s) s) as [Hc1 He1].
  set (s1 := cancel_loop (cancelChannel s) s) in *.
  pose proof (expedite_loop_handled (expediteChannel s1) s1) as H2.
  destruct (expedite_loop_channels (expediteChannel s1) s1) as [He2 Hc2].
  split.
  - rewrite <- He1 at 1.
    replace (0 <? cancelChannel s)%nat with ((0 <? cancelChannel s)%nat || false)
      by apply orb_false_r.
    replace (0 <? expediteChannel s1)%nat with (false || (0 <? expediteChannel s1)%nat)
      by reflexivity.
    eapply handled_trans; eassumption.
  - split.
    + rewrite Hc2, Hc1. destruct (cancelChannel s); reflexivity.
    + rewrite He2. destruct (expediteChannel s1); reflexivity.
Qed.

Lemma signalled_handled (s : Store) (name : string) (t : Time) :
  coroutines s = handlers -> drained s ->
  handled (String.eqb name SignalCancel) (String.eqb name SignalExpedite)
          s (signalled s (name, t))
  /\ drained (signalled s (name, t)).
Proof.
  intros Hco [Hc He]. unfold signalled. cbn [fst snd].
  set (s1 := deliver name (set_now t s)).
  assert (Hco1 : coroutines s1 = handlers).
  { unfold s1, deliver. repeat destruct (String.eqb _ _); exact Hco. }
  destruct (dispatch_handled s1 Hco1) as [H1 Hd]. split; [|exact Hd].
  assert (H0 : handled false false s s1).
  { unfold s1, deliver. repeat destruct (String.eqb _ _); cbn;
      (constructor; cbn; try reflexivity; try (symmetry; apply orb_false_r);
       exists []; split; [reflexivity | split; [constructor | apply tidy_nil]]). }
  assert (Hcc : (0 <? cancelChannel s1)%nat = String.eqb name SignalCancel).
  { unfold s1, deliver. destruct (String.eqb name SignalCancel) eqn:E1; cbn.
    - reflexivity.
    - destruct (String.eqb name SignalExpedite); cbn; rewrite Hc; reflexivity. }
  assert (Hec : (0 <? expediteChannel s1)%nat = String.eqb name SignalExpedite).
  { unfold s1, deliver. destruct (String.eqb name SignalCancel) eqn:E1; cbn.
    - rewrite He. apply String.eqb_eq in E1. subst name. reflexivity.
    - destruct (String.eqb name SignalExpedite); cbn; [|rewrite He]; reflexivity. }
  rewrite Hcc, Hec in H1.
  exact (handled_trans _ _ _ _ _ _ _ H0 H1).
Qed.

Lemma arrivals_handled (arrivals : list (string * Time)) :
  forall s, coroutines s = handlers -> drained s ->
  handled (received SignalCancel (map fst arrivals))
          (received SignalExpedite (map fst arrivals))
          s (fold_left signalled arrivals s)
  /\ drained (fold_left signalled arrivals s).
Proof.
  induction arrivals as [|[name t] rest IH]; intros s Hco Hd; cbn [fold_left map fst].
  - split; [apply handled_refl | exact Hd].
  - destruct (signalled_handled s name t Hco Hd) as [H1 Hd1].
    assert (Hco1 : coroutines (signalled s (name, t)) = handlers)
      by (rewrite (h_coroutines _ _ _ _ H1); exact Hco).
    destruct (IH _ Hco1 Hd1) as [H2 Hd2]. split; [|exact Hd2].
    exact (handled_trans _ _ _ _ _ _ _ H1 H2).
Qed.

(** The workflow function blocked at a step: what it finds when it
    resumes. *)
Lemma suspended_handled (env : Env) (step : Step) (s : Store) :
  coroutines s = handlers ->
  handled ((0 <? cancelChannel s)%nat || received_during env step SignalCancel)
          ((0 <? expediteChannel s)%nat || received_during env step SignalExpedite)
          (emit (Suspend Main) s) (suspended env step s)
  /\ drained (suspended env step s).
Proof.
  intros Hco. unfold suspended.
  destruct (dispatch_handled (emit (Suspend Main) s) Hco) as [H1 Hd1].
  assert (Hco1 : coroutines (dispatch (emit (Suspend Main) s)) = handlers)
    by (rewrite (h_coroutines _ _ _ _ H1); exact Hco).
  destruct (arrivals_handled (signals_during env step) _ Hco1 Hd1) as [H2 Hd2].
  pose proof (handled_trans _ _ _ _ _ _ _ H1 H2) as H.
  split; [|exact Hd2].
  replace (received_during env step SignalCancel)
    with (received_during env step SignalCancel || false) by apply orb_false_r.
  replace (received_during env step SignalExpedite)
    with (received_during env step SignalExpedite || false) by apply orb_false_r.
  rewrite !orb_assoc.
  eapply handled_trans; [exact H|].
  constructor; cbn; try reflexivity; try (symmetry; apply orb_false_r).
  exists []. split; [reflexivity | split; [constructor | apply tidy_nil]].
Qed.

(** ** Starting an instance *)

Lemma count_received (name : string) (names : list string) :
  (0 <? count name names)%nat = received name names.
Proof.
  induction names as [|n rest IH]; cbn; [reflexivity|].
  destruct (String.eqb n name); [reflexivity | exact IH].
Qed.

Lemma deliveries (names : list string) :
  forall s,
    fold_left (fun s name => deliver name s) names s
    = mkStore (state s) (cancelRequested s) (now s)
              (cancelChannel s + count SignalCancel names)
              (expediteChannel s + count SignalExpedite names)
              (coroutines s) (queryHandlers s) (markers s) (trace s) (observed s).
Proof.
  induction names as [|n rest IH]; intros s; cbn [fold_left count].
  - destruct s; cbn. f_equal; lia.
  - rewrite IH. unfold deliver.
    destruct (String.eqb n SignalCancel) eqn:E1.
    + apply String.eqb_eq in E1. subst n. cbn. f_equal; lia.
    + destruct (String.eqb n SignalExpedite) eqn:E2; cbn; f_equal; lia.
Qed.

(** Before the workflow function has run, nothing has been consumed: the
    early signals are still on their channels. *)
Lemma initial_store_closed (env : Env) :
  initial_store env
  = mkStore zeroOrderStatus false (started_at env)
            (count SignalCancel (buffered_signals env))
            (count SignalExpedite (buffered_signals env))
            [] [] (history_markers env) [] [].
Proof. unfold initial_store. rewrite deliveries. reflexivity. Qed.

(** ** PaymentWorkflow *)

(** A run of the child comes to what the Step Executor makes of the payment
    activity in that run. *)
Lemma child_result_step (env : Env) (order : Order) (run : nat) :
  child_result env order run
  = snd (StepExecutor stepPolicy (ProcessPayment_attempt env run (paymentReq_of order))).
Proof.
  unfold child_result, child_run, PaymentWorkflow, bind, ExecuteActivity.
  cbn -[StepExecutor suspended].
  change (StepExecutor _ _)
    with (StepExecutor stepPolicy (ProcessPayment_attempt env run (paymentReq_of order))).
  destruct (StepExecutor stepPolicy _) as [waits [a|e]]; reflexivity.
Qed.

(** ** The step executor under the saga's policy *)

Lemma StepExecutor_first_ok {A : Type} (step : nat -> result A) (a : A) :
  step 0%nat = Ok a -> StepExecutor stepPolicy step = ([], Ok a).
Proof. intros H. unfold StepExecutor. apply attempts_first_ok. exact H. Qed.


Lemma StepExecutor_exhausted {A : Type} (step : nat -> result A) (e0 e1 e2 : error) :
  step 0%nat = Fail e0 -> step 1%nat = Fail e1 -> step 2%nat = Fail e2 ->
  StepExecutor stepPolicy step = ([Second; 2 * Second], Fail e2).
Proof.
  intros H0 H1 H2. unfold StepExecutor.
  change (Z.to_nat (MaximumAttempts stepPolicy) - 1)%nat with 2%nat.
  cbn [attempts]. rewrite H0, H1, H2. reflexivity.
Qed.




(** A response of the payment step is one that ProcessPayment built. *)
Lemma ProcessPayment_attempt_ok (env : Env) (run : nat) (paymentReq : PaymentRequest)
      (n : nat) (paymentResp : PaymentResponse) :
  ProcessPayment_attempt env run paymentReq n = Ok paymentResp ->
  Success paymentResp = true.
Proof.
  unfold ProcessPayment_attempt, attempt_result.
  destruct (payment_attempt env run n); [|discriminate].
  cbn. intros H. injection H as <-. reflexivity.
Qed.

Lemma child_result_ok (env : Env) (order : Order) (run : nat)
      (paymentResp : PaymentResponse) :
  child_result env order run = Ok paymentResp -> Success paymentResp = true.
Proof.
  rewrite child_result_step.
  destruct (StepExecutor stepPolicy _) as [w r] eqn:E. cbn [snd]. intros ->.
  destruct (StepExecutor_ok_inv _ _ _ _ E) as [k Hk].
  exact (ProcessPayment_attempt_ok _ _ _ _ _ Hk).
Qed.

Lemma child_constant (env : Env) (order : Order) (r : result PaymentResponse) :
  (forall run,
      snd (StepExecutor stepPolicy (ProcessPayment_attempt env run (paymentReq_of order)))
      = r) ->
  snd (StepExecutor stepPolicy (child_result env order)) = r.
Proof.
  intros H. unfold StepExecutor at 1. apply attempts_constant.
  intros run. rewrite child_result_step. apply H.
Qed.

Lemma child_first_ok (env : Env) (order : Order) (paymentResp : PaymentResponse) :
  snd (StepExecutor stepPolicy (ProcessPayment_attempt env 0%nat (paymentReq_of order)))
  = Ok paymentResp ->
  snd (StepExecutor stepPolicy (child_result env order)) = Ok paymentResp.
Proof.
  intros H. rewrite (StepExecutor_first_ok (child_result env order) paymentResp).
  - reflexivity.
  - rewrite child_result_step. exact H.
Qed.

(** ** The handlers, whatever coroutines there are *)

Lemma deliver_handled (name : string) (s : Store) : handled false false s (deliver name s).
Proof.
  unfold deliver. repeat destruct (String.eqb _ _); cbn;
    (constructor; cbn; try reflexivity; try (symmetry; apply orb_false_r);
     exists []; split; [reflexivity | split; [constructor | apply tidy_nil]]).
Qed.

Lemma resume_handled_any (c : Coroutine) (s : Store) :
  exists cc ee, handled cc ee s (resume c s).
Proof.
  destruct c; cbn [resume].
  - exists false, false. apply handled_refl.
  - eexists _, _. apply cancel_loop_handled.
  - eexists _, _. apply expedite_loop_handled.
Qed.

Lemma resumes_handled_any (l : list Coroutine) :
  forall s, exists cc ee, handled cc ee s (fold_left (fun s c => resume c s) l s).
Proof.
  induction l as [|c l IH]; intros s; cbn [fold_left].
  - exists false, false. apply handled_refl.
  - destruct (resume_handled_any c s) as (c1 & e1 & H1).
    destruct (IH (resume c s)) as (c2 & e2 & H2).
    eexists _, _. exact (handled_trans _ _ _ _ _ _ _ H1 H2).
Qed.

Lemma signalled_handled_any (s : Store) (a : string * Time) :
  exists cc ee, handled cc ee s (signalled s a).
Proof.
  unfold signalled, dispatch.
  destruct (resumes_handled_any (coroutines (deliver (fst a) (set_now (snd a) s)))
                                (deliver (fst a) (set_now (snd a) s))) as (c2 & e2 & H2).
  assert (H0 : handled false false s (set_now (snd a) s)).
  { constructor; cbn; try reflexivity; try (symmetry; apply orb_false_r).
    exists []. split; [reflexivity | split; [constructor | apply tidy_nil]]. }
  pose proof (handled_trans _ _ _ _ _ _ _ H0 (deliver_handled (fst a) _)) as H1.
  eexists _, _. exact (handled_trans _ _ _ _ _ _ _ H1 H2).
Qed.

Lemma arrivals_handled_any (l : list (string * Time)) :
  forall s, exists cc ee, handled cc ee s (fold_left signalled l s).
Proof.
  induction l as [|a l IH]; intros s; cbn [fold_left].
  - exists false, false. apply handled_refl.
  - destruct (signalled_handled_any s a) as (c1 & e1 & H1).
    destruct (IH (signalled s a)) as (c2 & e2 & H2).
    eexists _, _. exact (handled_trans _ _ _ _ _ _ _ H1 H2).
Qed.

Lemma suspended_handled_any (env : Env) (step : Step) (s : Store) :
  exists cc ee, handled cc ee (emit (Suspend Main) s) (suspended env step s).
Proof.
  unfold suspended, dispatch.
  destruct (resumes_handled_any (coroutines (emit (Suspend Main) s))
                                (emit (Suspend Main) s)) as (c1 & e1 & H1).
  destruct (arrivals_handled_any (signals_during env step)
              (fold_left (fun s c => resume c s) (coroutines (emit (Suspend Main) s))
                         (emit (Suspend Main) s))) as (c2 & e2 & H2).
  pose proof (handled_trans _ _ _ _ _ _ _ H1 H2) as H.
  eexists _, _. eapply handled_trans; [exact H|].
  constructor; cbn; try reflexivity; try (symmetry; apply orb_false_r).
  exists []. split; [reflexivity | split; [constructor | apply tidy_nil]].
Qed.

Lemma suspended_trace (env : Env) (step : Step) (s : Store) :
  exists ext, trace (suspended env step s) = ext ++ Suspend Main :: trace s.
Proof.
  destruct (suspended_handled_any env step s) as (cc & ee & H).
  destruct (h_trace _ _ _ _ H) as (ext & Ht & _). exists ext. exact Ht.
Qed.

(** ** What the handlers write is what a query sees *)

Lemma observes_refl (s s' : Store) :
  trace s' = trace s -> observed s' = observed s -> observes s s'.
Proof.
  intros Ht Ho. exists [], []. repeat split; [exact Ht | exact Ho |].
  intros later rest rest_seen H. apply H.
Qed.

Lemma observes_trans (s s' s'' : Store) :
  observes s s' -> observes s' s'' -> observes s s''.
Proof.
  intros (e1 & o1 & Ht1 & Ho1 & H1) (e2 & o2 & Ht2 & Ho2 & H2).
  exists (e2 ++ e1), (o2 ++ o1).
  rewrite Ht2, Ho2, Ht1, Ho1, !app_assoc. repeat split.
  intros later rest rest_seen H. rewrite <- !app_assoc.
  apply H2. intros t. apply H1. exact H.
Qed.

Lemma cancel_loop_observes (n : nat) : forall s, observes s (cancel_loop n s).
Proof.
  induction n as [|n IH]; intros s; cbn [cancel_loop].
  - exists [Suspend CancelLoop], [(state s, now s)]. repeat split.
    intros later rest rest_seen H. cbn. apply H.
  - eapply observes_trans; [|apply IH]. apply observes_refl; reflexivity.
Qed.

Lemma expedite_loop_observes (n : nat) : forall s, observes s (expedite_loop n s).
Proof.
  induction n as [|n IH]; intros s; cbn [expedite_loop].
  - exists [Suspend ExpediteLoop], [(state s, now s)]. repeat split.
    intros later rest rest_seen H. cbn. apply H.
  - eapply observes_trans; [|apply IH].
    eexists [Stamp; Assign FIsExpedited], [_; _]. repeat split.
    intros later rest rest_seen H. cbn. rewrite !Z.eqb_refl. apply H.
Qed.

Lemma resume_observes (c : Coroutine) (s : Store) : observes s (resume c s).
Proof.
  destruct c; cbn [resume].
  - apply observes_refl; reflexivity.
  - apply cancel_loop_observes.
  - apply expedite_loop_observes.
Qed.

Lemma resumes_observe (l : list Coroutine) :
  forall s, observes s (fold_left (fun s c => resume c s) l s).
Proof.
  induction l as [|c l IH]; intros s; cbn [fold_left].
  - apply observes_refl; reflexivity.
  - eapply observes_trans; [apply resume_observes | apply IH].
Qed.

Lemma signalled_observes (s : Store) (a : string * Time) : observes s (signalled s a).
Proof.
  unfold signalled, dispatch.
  eapply observes_trans; [|apply resumes_observe].
  apply observes_refl; unfold deliver;
    repeat match goal with |- context [if ?b then _ else _] => destruct b end;
    reflexivity.
Qed.

Lemma arrivals_observe (l : list (string * Time)) :
  forall s, observes s (fold_left signalled l s).
Proof.
  induction l as [|a l IH]; intros s; cbn [fold_left].
  - apply observes_refl; reflexivity.
  - eapply observes_trans; [apply signalled_observes | apply IH].
Qed.

Lemma suspended_observes (env : Env) (step : Step) (s : Store) :
  observes (emit (Suspend Main) s) (suspended env step s).
Proof.
  unfold suspended, dispatch.
  eapply observes_trans; [apply resumes_observe|].
  eapply observes_trans; [apply arrivals_observe|].
  apply observes_refl; reflexivity.
Qed.

Lemma suspended_timely (env : Env) (step : Step) (s : Store) (ext : list Event) :
  trace (suspended env step s) = ext ++ Suspend Main :: trace s ->
  exists seen,
    observed (suspended env step s) = seen ++ (state s, now s) :: observed s
    /\ timely ext seen.
Proof.
  intros Ht. destruct (suspended_observes env step s) as (ext' & seen & Ht' & Ho & H).
  cbn [trace observed emit] in Ht', Ho.
  rewrite Ht' in Ht. apply app_inv_tail in Ht. subst ext'.
  exists seen. split; [exact Ho | exact H].
Qed.

(** ** Traces do not steer the handlers *)

Lemma cancel_loop_forget (n : nat) :
  forall s, forget_trace (cancel_loop n s) = forget_trace (cancel_loop n (forget_trace s)).
Proof.
  induction n as [|n IH]; intros s; cbn [cancel_loop]; [reflexivity|].
  rewrite IH. symmetry. rewrite IH. reflexivity.
Qed.

Lemma expedite_loop_forget (n : nat) :
  forall s, forget_trace (expedite_loop n s)
            = forget_trace (expedite_loop n (forget_trace s)).
Proof.
  induction n as [|n IH]; intros s; cbn [expedite_loop]; [reflexivity|].
  rewrite IH. symmetry. rewrite IH. reflexivity.
Qed.

Lemma resume_forget (c : Coroutine) (s : Store) :
  forget_trace (resume c s) = forget_trace (resume c (forget_trace s)).
Proof.
  destruct c; cbn [resume].
  - reflexivity.
  - apply cancel_loop_forget.
  - apply expedite_loop_forget.
Qed.

Lemma resumes_forget (l : list Coroutine) :
  forall s, forget_trace (fold_left (fun s c => resume c s) l s)
            = forget_trace (fold_left (fun s c => resume c s) l (forget_trace s)).
Proof.
  induction l as [|c l IH]; intros s; cbn [fold_left]; [reflexivity|].
  rewrite IH, resume_forget, <- IH. reflexivity.
Qed.

Lemma dispatch_forget (s : Store) :
  forget_trace (dispatch s) = forget_trace (dispatch (forget_trace s)).
Proof. unfold dispatch. apply resumes_forget. Qed.

Lemma signalled_forget (s : Store) (a : string * Time) :
  forget_trace (signalled s a) = forget_trace (signalled (forget_trace s) a).
Proof.
  unfold signalled. rewrite dispatch_forget. symmetry. rewrite dispatch_forget.
  f_equal. f_equal. unfold deliver. repeat destruct (String.eqb _ _); reflexivity.
Qed.

Lemma arrivals_forget (l : list (string * Time)) :
  forall s, forget_trace (fold_left signalled l s)
            = forget_trace (fold_left signalled l (forget_trace s)).
Proof.
  induction l as [|a l IH]; intros s; cbn [fold_left]; [reflexivity|].
  rewrite IH, signalled_forget, <- IH. reflexivity.
Qed.

Lemma suspended_forget (env : Env) (step : Step) (s : Store) :
  forget_trace (suspended env step s)
  = forget_trace (suspended env step (forget_trace s)).
Proof.
  unfold suspended.
  change (forget_trace (set_now ?t ?x)) with (set_now t (forget_trace x)).
  rewrite arrivals_forget, dispatch_forget. symmetry.
  rewrite arrivals_forget, dispatch_forget. reflexivity.
Qed.

Lemma suspended_same_but_trace (env : Env) (step : Step) (s s' : Store) :
  same_but_trace s s' ->
  same_but_trace (suspended env step s) (suspended env step s').
Proof.
  unfold same_but_trace. intros H.
  rewrite suspended_forget, H, <- suspended_forget. reflexivity.
Qed.

(** ** Markers do not steer the handlers either *)

Lemma cancel_loop_markers (m : gmap string Z) (n : nat) :
  forall s, cancel_loop n (set_markers m s) = set_markers m (cancel_loop n s).
Proof.
  induction n as [|n IH]; intros s; cbn [cancel_loop]; [reflexivity|].
  rewrite <- IH. reflexivity.
Qed.

Lemma expedite_loop_markers (m : gmap string Z) (n : nat) :
  forall s, expedite_loop n (set_markers m s) = set_markers m (expedite_loop n s).
Proof.
  induction n as [|n IH]; intros s; cbn [expedite_loop]; [reflexivity|].
  rewrite <- IH. reflexivity.
Qed.

Lemma resume_markers (m : gmap string Z) (c : Coroutine) (s : Store) :
  resume c (set_markers m s) = set_markers m (resume c s).
Proof.
  destruct c; cbn [resume].
  - reflexivity.
  - apply cancel_loop_markers.
  - apply expedite_loop_markers.
Qed.

Lemma resumes_markers (m : gmap string Z) (l : list Coroutine) :
  forall s, fold_left (fun s c => resume c s) l (set_markers m s)
            = set_markers m (fold_left (fun s c => resume c s) l s).
Proof.
  induction l as [|c l IH]; intros s; cbn [fold_left]; [reflexivity|].
  rewrite resume_markers. apply IH.
Qed.

Lemma dispatch_markers (m : gmap string Z) (s : Store) :
  dispatch (set_markers m s) = set_markers m (dispatch s).
Proof. unfold dispatch. apply resumes_markers. Qed.

Lemma signalled_markers (m : gmap string Z) (s : Store) (a : string * Time) :
  signalled (set_markers m s) a = set_markers m (signalled s a).
Proof.
  unfold signalled. rewrite <- dispatch_markers. f_equal.
  unfold deliver. repeat destruct (String.eqb _ _); reflexivity.
Qed.

Lemma arrivals_markers (m : gmap string Z) (l : list (string * Time)) :
  forall s, fold_left signalled l (set_markers m s)
            = set_markers m (fold_left signalled l s).
Proof.
  induction l as [|a l IH]; intros s; cbn [fold_left]; [reflexivity|].
  rewrite signalled_markers. apply IH.
Qed.

Lemma suspended_markers (m : gmap string Z) (env : Env) (step : Step) (s : Store) :
  suspended env step (set_markers m s) = set_markers m (suspended env step s).
Proof.
  unfold suspended.
  change (emit (Suspend Main) (set_markers m s))
    with (set_markers m (emit (Suspend Main) s)).
  rewrite dispatch_markers, arrivals_markers. reflexivity.
Qed.

(** The instance a replay resumes with is the one the first run resumed
    with, under the markers the replay has. *)
Lemma suspended_replay (env : Env) (g : gmap string Z) (step : Step)
      st cr nw cc ec co qh (m' : gmap string Z) tr ob (m : gmap string Z) :
  suspended (with_markers g env) step (mkStore st cr nw cc ec co qh m' tr ob)
  = set_markers m' (suspended env step (mkStore st cr nw cc ec co qh m tr ob)).
Proof. rewrite <- suspended_markers. reflexivity. Qed.

Lemma child_result_markers (g : gmap string Z) (env : Env) (order : Order) :
  child_result (with_markers g env) order = child_result env order.
Proof. reflexivity. Qed.

Lemma suspended_notification (f : nat -> Attempt unit) (env : Env) (step : Step)
      (s : Store) :
  suspended (with_notification f env) step s = suspended env step s.
Proof. reflexivity. Qed.

Lemma child_result_notification (f : nat -> Attempt unit) (env : Env) (order : Order) :
  child_result (with_notification f env) order = child_result env order.
Proof. reflexivity. Qed.

Lemma resolve_idempotent (m : gmap string Z) (c : string) (d l v : Z)
      (g : gmap string Z) (d' l' : Z) :
  resolve m c d l = (v, g) -> resolve g c d' l' = (v, g).
Proof.
  unfold resolve. destruct (m !! c) as [x|] eqn:E; intros H; injection H as; subst.
  - rewrite E. reflexivity.
  - rewrite lookup_insert_eq. reflexivity.
Qed.

Lemma with_markers_same (env : Env) : with_markers (history_markers env) env = env.
Proof. destruct env; reflexivity. Qed.

(** ** Running OrderWorkflow symbolically

    The workflow function is unfolded into its tree of cases. Each time it
    blocks, the instance it resumes with is replaced by a fresh one about
    which only [suspended_handled] is known. *)

Arguments suspended : simpl never.
Arguments StepExecutor : simpl never.
Arguments resolve : simpl never.
Arguments received_during : simpl never.

Ltac head_scrutinee t :=
  lazymatch t with
  | context [match ?x with _ => _ end] => head_scrutinee x
  | _ => t
  end.

Ltac name_suspended :=
  match goal with
  | |- context [suspended ?env ?step ?S] =>
      let H := fresh "Hh" in
      let Hd := fresh "Hd" in
      let s := fresh "s" in
      let Heqs := fresh "Heqs" in
      destruct (suspended_handled env step S ltac:(reflexivity)) as [H Hd];
      remember (suspended env step S) as s eqn:Heqs in *; clear Heqs;
      destruct H as [? ? ? ? ? ? ? ? ? (? & ? & ? & ?)];
      destruct Hd as [? ?];
      destruct s as [[] ? ? ? ? ? ? ? ? ?]; cbn -[Nat.ltb In] in *; subst
  end.

Ltac wf_unfold :=
  unfold final, outcome, execute, OrderWorkflow, cancellation_checkpoint,
    payment_via_activity, payment_via_child, ExecuteChildWorkflow,
    ExecuteActivity, GetVersion, SetQueryHandler, Go, touch, assign, Now,
    read, modify, bind, ret, Return;
  rewrite ?initial_store_closed.

Ltac wf_case :=
  match goal with
  | |- ?G =>
      let x := head_scrutinee G in
      lazymatch x with
      | G => fail
      | _ => destruct x eqn:?
      end
  end.

Ltac wf_step :=
  cbn -[suspended StepExecutor resolve Nat.ltb In]; try name_suspended; try wf_case.

Ltac wf_run :=
  wf_unfold; repeat wf_step; cbn -[suspended StepExecutor resolve Nat.ltb In] in *.

(** Timestamps: through the blocks the handlers add. *)
Ltac stamp_solver :=
  cbn [stamped unstamped negb andb];
  try reflexivity;
  match goal with
  | H : tidy ?x |- context [?x ++ ?l] =>
      let Hu := fresh "Hu" in
      let Hs := fresh "Hs" in
      assert (Hu : unstamped l = false) by stamp_solver;
      assert (Hs : stamped l = true) by stamp_solver;
      let Hu' := fresh "Hu" in
      let Hs' := fresh "Hs" in
      destruct (H l Hu Hs) as [Hu' Hs']; rewrite ?Hu', ?Hs'; reflexivity
  end.

(** Timestamps as they are observed: what is known of an instance that
    resumes, and the check of a trace event by event. *)
Arguments timely : simpl never.

Ltac note_observed :=
  match goal with
  | |- context [suspended ?env ?step ?S] =>
      let H := fresh "Hobs" in
      pose proof (suspended_timely env step S) as H
  end.

Ltac use_observed :=
  match goal with
  | H : forall ext, _ = _ -> exists seen, _ /\ timely ext seen |- _ =>
      let Ho := fresh "Ho" in
      let Hy := fresh "Hy" in
      destruct (H _ eq_refl) as (? & Ho & Hy); clear H; subst
  end.

Ltac time_solver :=
  repeat first
    [ reflexivity
    | progress (cbn [timestamped app andb LastUpdated]; rewrite ?Z.eqb_refl; cbn [andb])
    | match goal with
      | H : timely ?x ?y |- timestamped _ (?x ++ _) (?y ++ _) = true =>
          apply H; intros ?
      end ].

(** An event that is in a trace: where it can be. *)
Ltac trace_inv H :=
  repeat match type of H with
  | In _ [] => destruct H
  | In _ (_ :: _) =>
      let H' := fresh in
      destruct H as [H'|H]; [try discriminate H'; try (injection H' as; subst) | ]
  | In _ (?x ++ _) =>
      let H' := fresh in
      apply in_app_or in H; destruct H as [H'|H];
      [ match goal with
        | Q : Forall quiet x |- _ =>
            exfalso; rewrite List.Forall_forall in Q; exact (Q _ H')
        end | ]
  end.

Lemma ends_with_refl {A : Type} (base : list A) : exists newer, base = newer ++ base.
Proof. exists []. reflexivity. Qed.

Lemma ends_with_cons {A : Type} (base l : list A) (a : A) :
  (exists newer, l = newer ++ base) -> exists newer, a :: l = newer ++ base.
Proof. intros [newer ->]. exists (a :: newer). reflexivity. Qed.

Lemma ends_with_app {A : Type} (base l x : list A) :
  (exists newer, l = newer ++ base) -> exists newer, x ++ l = newer ++ base.
Proof. intros [newer ->]. exists (x ++ newer). apply app_assoc. Qed.

Ltac ends_with :=
  repeat first [ apply ends_with_refl | apply ends_with_cons | apply ends_with_app ].

Ltac wf_step_with tac :=
  cbn -[suspended StepExecutor resolve Nat.ltb In]; tac; try name_suspended; try wf_case.

(** Stores under [suspended], field by field. *)
Ltac normal_stores :=
  repeat match goal with
  | |- context [suspended ?env ?step ?S] =>
      lazymatch S with
      | mkStore _ _ _ _ _ _ _ _ _ _ => fail
      | _ => idtac
      end;
      let S' := eval cbn -[suspended StepExecutor resolve Nat.ltb In] in
        (mkStore (state S) (cancelRequested S) (now S) (cancelChannel S)
                 (expediteChannel S) (coroutines S) (queryHandlers S)
                 (markers S) (trace S) (observed S)) in
      change (suspended env step S) with (suspended env step S')
  end.

(** A replay and the first run, side by side. *)
Ltac sync_replay :=
  rewrite ?child_result_markers;
  normal_stores;
  try match goal with
  | |- context [suspended (with_markers ?g ?env) ?step
                          (mkStore ?a ?b ?c ?d ?e ?f ?h ?m' ?tr ?ob)] =>
      match goal with
      | |- context [suspended env step (mkStore _ _ _ _ _ _ _ ?m _ _)] =>
          rewrite (suspended_replay env g step a b c d e f h m' tr ob m)
      end
  end.

Ltac sync_resolved Hm Hg := sync_replay; rewrite ?Hm, ?Hg.

(** An event that is in a trace: finding it. *)
Ltac trace_find :=
  repeat first [ left; reflexivity | right | apply in_or_app; right ].


(** ** Replay *)

Lemma final_markers (env : Env) (order : Order) :
  markers (final env order) = history_markers env
  \/ (markers (final env order)
      = snd (resolve (history_markers env) payment_change DefaultVersion 2)
      /\ Stage (state (final env order)) <> StageValidation).
Proof.
  wf_run; auto.
  all: right; split; [|discriminate].
  all: unfold payment_change;
    match goal with H : resolve _ _ _ _ = _ |- _ => rewrite H end; reflexivity.
Qed.

Lemma replay_reached (env : Env) (order : Order) (z : Z) (g : gmap string Z) :
  resolve (history_markers env) payment_change DefaultVersion 2 = (z, g) ->
  Stage (state (final env order)) <> StageValidation ->
  execute (with_markers g env) order = execute env order.
Proof.
  intros Hm.
  assert (Hg := resolve_idempotent _ _ _ _ _ _ DefaultVersion 2 Hm).
  unfold payment_change in Hm, Hg.
  wf_unfold.
  repeat wf_step_with ltac:(sync_resolved Hm Hg).
  all: cbn.
  all: try (intros Hs; exfalso; apply Hs; reflexivity).
  all: intros _; reflexivity.
Qed.

Lemma replay (env : Env) (order : Order) :
  execute (with_markers (markers (final env order)) env) order = execute env order.
Proof.
  destruct (final_markers env order) as [H|[H Hs]]; rewrite H.
  - rewrite with_markers_same. reflexivity.
  - apply (replay_reached env order
             (fst (resolve (history_markers env) payment_change DefaultVersion 2))).
    + apply surjective_pairing.
    + exact Hs.
Qed.

(** ** The two payment branches *)

Lemma branches_same_result (env : Env) (ctx : Context) (order : Order) (s : Store)
      (r : result PaymentResponse) :
  ActivityOptions_RetryPolicy (activityOptions ctx) = stepPolicy ->
  snd (StepExecutor stepPolicy (ProcessPayment_attempt env 0%nat (paymentReq_of order)))
  = r ->
  snd (StepExecutor stepPolicy (child_result env order)) = r ->
  fst (payment_via_activity env ctx order s) = fst (payment_via_child env ctx order s)
  /\ same_but_trace (snd (payment_via_activity env ctx order s))
                    (snd (payment_via_child env ctx order s))
  /\ fst (payment_via_activity env ctx order s)
     = match r with
       | Ok paymentResp => Next paymentResp
       | Fail err => Returned (Some err)
       end.
Proof.
  intros Hp Ha Hc.
  unfold payment_via_activity, payment_via_child, ExecuteActivity,
    ExecuteChildWorkflow, bind, assign, touch, modify, ret, Return.
  cbn -[suspended StepExecutor]. rewrite Hp.
  change (mkRetryPolicy Second 2 (10 * Second) 3) with stepPolicy.
  change (StepExecutor stepPolicy (fun n => attempt_result _ _))
    with (StepExecutor stepPolicy (ProcessPayment_attempt env 0 (paymentReq_of order))).
  destruct (StepExecutor stepPolicy (ProcessPayment_attempt env 0 (paymentReq_of order)))
    as [w1 r1].
  destruct (StepExecutor stepPolicy (child_result env order)) as [w2 r2].
  cbn [snd] in Ha, Hc. subst r1 r2.
  match goal with
  | |- context [suspended env AwaitPayment (emit (Invoke ?c1) s)] =>
      match goal with
      | |- context [suspended env AwaitPayment (emit (StartChild ?a ?b ?c) s)] =>
          assert (Hs : same_but_trace (suspended env AwaitPayment (emit (Invoke c1) s))
                         (suspended env AwaitPayment (emit (StartChild a b c) s)))
            by (apply suspended_same_but_trace; reflexivity);
          destruct (suspended env AwaitPayment (emit (Invoke c1) s));
          destruct (suspended env AwaitPayment (emit (StartChild a b c) s))
      end
  end.
  unfold same_but_trace, forget_trace in Hs. cbn in Hs. injection Hs as; subst.
  destruct r; cbn; repeat split.
Qed.

Lemma activity_branch_request (env : Env) (ctx : Context) (order : Order) (s : Store) :
  In (Invoke (ProcessPaymentCall (paymentReq_of order)))
     (trace (snd (payment_via_activity env ctx order s))).
Proof.
  unfold payment_via_activity, ExecuteActivity, bind, assign, touch, modify, ret, Return.
  cbn -[suspended StepExecutor].
  destruct (StepExecutor _ _) as [w [a|e]];
    match goal with
    | |- context [suspended env AwaitPayment ?S] =>
        destruct (suspended_trace env AwaitPayment S) as [ext Hext]
    end;
    cbn -[suspended In] in *; rewrite Hext; trace_find.
Qed.

Lemma child_branch_request (env : Env) (order : Order) (run : nat) :
  In (Invoke (ProcessPaymentCall (paymentReq_of order)))
     (trace (snd (child_run env order run))).
Proof.
  unfold child_run, PaymentWorkflow, ExecuteActivity, bind, ret, Return.
  cbn -[suspended StepExecutor].
  destruct (StepExecutor _ _) as [w [a|e]];
    match goal with
    | |- context [suspended ?env' AwaitPayment ?S] =>
        destruct (suspended_trace env' AwaitPayment S) as [ext Hext]
    end;
    cbn -[suspended In] in *; rewrite Hext; trace_find.
Qed.

(** ** Cancellation at the checkpoints after validation and after payment *)

(** The result of the validation step that a case assumed. *)
Ltac validation_result env order Hvr :=
  match goal with
  | E : StepExecutor _ _ = (_, ?r) |- _ =>
      let H := fresh "Hres" in
      assert (H : snd (StepExecutor stepPolicy (ValidateOrder_attempt env order)) = r)
        by (exact (f_equal snd E));
      let H' := fresh "Hres" in
      pose proof (eq_trans Hvr H) as H'; clear H;
      first [ discriminate H' | injection H' as H'; subst ]
  end.

(** X8. A cancel signal handled by the time validation has settled stops
    the saga before payment: if validation accepted the order the saga ends
    cancelled with a nil result, and it ends failed only with the error of a
    validation that failed or rejected the order. A cancel signal that
    arrives while payment is awaited stops the saga before fulfilment: if
    the payment settled the saga ends cancelled with a nil result and the
    payment completed, and if the payment failed it ends failed with the
    error of the payment. *)
Lemma later_checkpoints_stop_the_saga (env : Env) (order : Order) :
  SetQueryHandler_result env = None ->
  (received SignalCancel (buffered_signals env)
   || received_during env AwaitValidateOrder SignalCancel = true ->
   match snd (StepExecutor stepPolicy (ValidateOrder_attempt env order)) with
   | Ok validationResp =>
       if Valid validationResp
       then Status (state (final env order)) = StatusCancelled
            /\ outcome env order = None
       else Status (state (final env order)) = StatusFailed
            /\ outcome env order
               = Some (errorString ("order validation failed: "
                                      ++ ValidationResponse_Message validationResp))
   | Fail err =>
       Status (state (final env order)) = StatusFailed
       /\ outcome env order = Some err
   end
   /\ ~ payment_invoked (trace (final env order))
   /\ ~ fulfilment_invoked (trace (final env order)))
  /\ (received_during env AwaitPayment SignalCancel = true ->
      (payment_settled (trace (final env order)) ->
       Status (state (final env order)) = StatusCancelled
       /\ PaymentStatus (state (final env order)) = "completed"
       /\ outcome env order = None)
      /\ (forall e, payment_failed_with e (trace (final env order)) ->
                    Status (state (final env order)) = StatusFailed
                    /\ outcome env order = Some e)
      /\ ~ fulfilment_invoked (trace (final env order))).
Proof.
  intros Hq.
  unfold payment_invoked, payment_activity_invoked, payment_child_started,
    fulfilment_invoked, payment_settled, payment_failed_with.
  split.
  - rewrite <- count_received.
    remember (snd (StepExecutor stepPolicy (ValidateOrder_attempt env order)))
      as vr eqn:Hvr.
    destruct vr as [validationResp|err]; [destruct (Valid validationResp) eqn:Hv|].
    all: wf_run; try congruence.
    all: intros Hc; try congruence.
    all: validation_result env order Hvr; try congruence.
    all: try match goal with
             | H : negb (Valid _) = _ |- _ => rewrite Hv in H; discriminate H
             end.
    all: (split; [split; reflexivity|]).
    all: split; [intros [(? & Hin)|(? & ? & ? & Hin)]; trace_inv Hin
                | intros (? & ? & Hin); trace_inv Hin].
  - wf_run; try congruence.
    all: intros Hc; try congruence.
    all: try (rewrite Hc, ?orb_true_r in *; discriminate).
    all: split;
      [ intros [(? & ? & Hin)|(? & Hin)]; trace_inv Hin; repeat split; reflexivity
      | split;
        [ intros ? [(? & ? & Hin)|(? & Hin)]; trace_inv Hin; repeat split; reflexivity
        | intros (? & ? & Hin); trace_inv Hin ] ].
Qed.

(** ** The repository's tests and the scenarios of the specification *)

Example itoa_examples :
  itoa 1700000000 = "1700000000" /\ itoa 0 = "0" /\ itoa (-5) = "-5" /\ itoa 500 = "500".
Proof. repeat split. Qed.

Example ValidateOrder_success :
  activities.ValidateOrder (fun _ => accepted) order1
  = Ok {| Valid := true; ValidationResponse_Message := "Order validated successfully" |}.
Proof. reflexivity. Qed.

Example ValidateOrder_validation_failed :
  activities.ValidateOrder (fun _ => rejected) order2
  = Ok {| Valid := false; ValidationResponse_Message := "Amount exceeds maximum allowed" |}.
Proof. reflexivity. Qed.

Example ValidateOrder_HTTP_error :
  activities.ValidateOrder (fun _ => unavailable) order1
  = Fail (errorString "validation service returned status 500: Internal Server Error").
Proof. reflexivity. Qed.

Example ValidateOrder_NaN_amount :
  activities.ValidateOrder (fun _ => accepted)
    {| ID := "ORD-3"; Items := []; Amount := 9221120237041090560;
       Order_Status := StatusPending; CreatedAt := 0 |}
  = Fail (errorString
            "failed to marshal validation request: json: unsupported value: NaN").
Proof. reflexivity. Qed.

Example ProcessPayment_example :
  activities.ProcessPayment 1700000000
    {| PaymentRequest_OrderID := "TEST-006"; PaymentRequest_Amount := 4643017701772492800 |}
  = ({| Success := true;
        TransactionID := "TXN-TEST-006-1700000000";
        Message := "Payment processed successfully" |}, None).
Proof. reflexivity. Qed.

Example ProcessOrder_example :
  activities.ProcessOrder None order1 false = None
  /\ activities.ProcessOrder (Some (1500000000, errorString "context canceled")) order1 false
     = Some (errorString "context canceled")
  /\ activities.ProcessOrder (Some (1500000000, errorString "context canceled")) order1 true
     = None.
Proof. repeat split. Qed.

Example backoff_example :
  map (backoff stepPolicy) [0; 1; 2; 3; 4; 5]%nat
  = [Second; 2 * Second; 4 * Second; 8 * Second; 10 * Second; 10 * Second].
Proof. reflexivity. Qed.

(** Order ORD-1 of amount 100.00: validation accepts, payment succeeds with
    a transaction id that begins with TXN-ORD-1, fulfilment completes,
    notification is attempted. *)
Example scenario_ORD_1 :
  outcome healthy order1 = None
  /\ state (final healthy order1)
     = {| OrderID := "ORD-1"; Status := "completed"; Stage := "completed";
          IsExpedited := false; PaymentStatus := "completed"; LastUpdated := 500 |}
  /\ TransactionID paid1 = "TXN-ORD-1-1700000000"
  /\ notification_invoked (trace (final healthy order1)).
Proof.
  split; [reflexivity | split; [reflexivity | split; [reflexivity|]]].
  exists order1. vm_compute. trace_find.
Qed.

(** Order ORD-2 of amount 15000.00: validation rejects. *)
Example scenario_ORD_2 :
  outcome rejecting order2
  = Some (errorString "order validation failed: Amount exceeds maximum allowed")
  /\ Status (state (final rejecting order2)) = "failed".
Proof. split; reflexivity. Qed.

(** The saga exactly as it runs when a cancel signal was sent before it
    started and validation accepts the order (oldest event first). *)
Example cancelled_early_history :
  rev (trace (final cancelled_early order1))
  = [Assign FStatus; Assign FStage; Stamp; Invoke (ValidateOrderCall order1);
     Suspend Main; Suspend CancelLoop; Suspend ExpediteLoop;
     Settled (ValidateOrderCall order1) [] None;
     Assign FStatus; Stamp; Completed].
Proof. reflexivity. Qed.

(** ** The claims *)

(** C1. The Version Gate at the decision point "payment-processing-change"
    is deterministic across replay. Without a marker the gate records and
    returns the latest branch, and OrderWorkflow then delegates the payment
    to the child workflow. With a marker the gate returns the recorded
    branch whatever the latest branch of the running code is and records
    nothing; an instance that recorded the legacy branch calls the payment
    activity directly and never starts the child. Executing an instance
    again from what it persisted gives the same execution. *)
Theorem version_gate_is_replay_deterministic (env : Env) (order : Order) :
  (forall (m : gmap string Z) (changeID : string) (d latest : Z),
      m !! changeID = None ->
      resolve m changeID d latest = (latest, <[changeID := latest]> m))
  /\ (forall (m : gmap string Z) (changeID : string) (d latest recorded : Z),
         m !! changeID = Some recorded ->
         resolve m changeID d latest = (recorded, m))
  /\ (history_markers env !! payment_change = None ->
      ~ payment_activity_invoked (trace (final env order))
      /\ (Stage (state (final env order)) <> StageValidation ->
          markers (final env order) !! payment_change = Some 2
          /\ In (StartChild ("payment-" ++ ID order)%string PaymentWorkflowName order)
                (trace (final env order))))
  /\ (forall recorded,
         history_markers env !! payment_change = Some recorded ->
         markers (final env order) = history_markers env
         /\ (recorded = DefaultVersion ->
             ~ payment_child_started (trace (final env order))
             /\ (Stage (state (final env order)) <> StageValidation ->
                 In (Invoke (ProcessPaymentCall (paymentReq_of order)))
                    (trace (final env order))))
         /\ (recorded <> DefaultVersion ->
             ~ payment_activity_invoked (trace (final env order))))
  /\ execute (with_markers (markers (final env order)) env) order = execute env order.
Proof.
  split; [intros; apply resolve_fresh; assumption|].
  split; [intros; eapply resolve_recorded; eassumption|].
  split; [|split; [|apply replay]].
  - intros Hnone.
    pose proof (resolve_fresh _ _ DefaultVersion 2 Hnone) as Hres.
    unfold payment_change in Hres. unfold payment_activity_invoked.
    wf_run.
    all: try (injection Hres as; subst).
    all: try discriminate.
    all: split; [intros (req & H); trace_inv H|].
    all: try (intros Hs; exfalso; apply Hs; reflexivity).
    all: intros _; split; [apply lookup_insert_eq | trace_find].
  - intros recorded Hrec.
    pose proof (resolve_recorded _ _ DefaultVersion 2 _ Hrec) as Hres.
    unfold payment_change in Hres.
    unfold payment_activity_invoked, payment_child_started.
    wf_run.
    all: try (injection Hres as; subst).
    all: split; [reflexivity|].
    all: split;
      [ intros ->; try discriminate;
        (split; [intros (? & ? & ? & Hin); trace_inv Hin|]);
        try (intros Hs; exfalso; apply Hs; reflexivity);
        intros _; trace_find
      | intros Hne; try (apply Z.eqb_eq in Heqb1; contradiction);
        intros (? & Hin); trace_inv Hin ].
Qed.

Lemma version_gate_is_replay_deterministic_witness :
  (markers (final healthy order1) !! payment_change = Some 2
   /\ In (StartChild "payment-ORD-1" PaymentWorkflowName order1)
         (trace (final healthy order1)))
  /\ In (Invoke (ProcessPaymentCall (paymentReq_of order1)))
        (trace (final legacy order1)).
Proof.
  destruct (version_gate_is_replay_deterministic healthy order1)
    as (_ & _ & Hfresh & _).
  destruct (version_gate_is_replay_deterministic legacy order1)
    as (_ & _ & _ & Hrecorded & _).
  split.
  - apply Hfresh; [reflexivity | vm_compute; discriminate].
  - destruct (Hrecorded DefaultVersion) as (_ & Hlegacy & _); [reflexivity|].
    apply Hlegacy; [reflexivity | vm_compute; discriminate].
Defined.

(** C2. A payment branch, the direct activity or the child workflow,
    either delivers a PaymentResponse with Success true or comes back with
    an error, having set status failed and payment status failed. When the
    branch that was taken comes back with an error, the saga ends with
    status failed and payment status failed, returns that error, and
    neither the fulfilment step nor the notification step is ever
    invoked. *)
Theorem payment_failure_is_fatal (env : Env) (order : Order) :
  (forall ctx s,
      (exists paymentResp,
          fst (payment_via_activity env ctx order s) = Next paymentResp
          /\ Success paymentResp = true)
      \/ (exists e,
             fst (payment_via_activity env ctx order s) = Returned (Some e)
             /\ Status (state (snd (payment_via_activity env ctx order s)))
                = StatusFailed
             /\ PaymentStatus (state (snd (payment_via_activity env ctx order s)))
                = "failed"))
  /\ (forall ctx s,
         (exists paymentResp,
             fst (payment_via_child env ctx order s) = Next paymentResp
             /\ Success paymentResp = true)
         \/ (exists e,
                fst (payment_via_child env ctx order s) = Returned (Some e)
                /\ Status (state (snd (payment_via_child env ctx order s)))
                   = StatusFailed
                /\ PaymentStatus (state (snd (payment_via_child env ctx order s)))
                   = "failed"))
  /\ (forall e,
         payment_failed_with e (trace (final env order)) ->
         Status (state (final env order)) = StatusFailed
         /\ PaymentStatus (state (final env order)) = "failed"
         /\ outcome env order = Some e
         /\ ~ fulfilment_invoked (trace (final env order))
         /\ ~ notification_invoked (trace (final env order))).
Proof.
  split; [|split].
  - intros ctx s.
    unfold payment_via_activity, ExecuteActivity, bind, assign, touch, modify,
      ret, Return.
    cbn -[suspended StepExecutor].
    destruct (StepExecutor _ _) as [w [paymentResp|e]] eqn:E; cbn.
    + left. exists paymentResp. split; [reflexivity|].
      destruct (StepExecutor_ok_inv _ _ _ _ E) as [k Hk].
      exact (ProcessPayment_attempt_ok env 0 (paymentReq_of order) k _ Hk).
    + right. exists e. repeat split.
  - intros ctx s.
    unfold payment_via_child, ExecuteChildWorkflow, bind, assign, touch, modify,
      ret, Return.
    cbn -[suspended StepExecutor].
    destruct (StepExecutor _ _) as [w [paymentResp|e]] eqn:E; cbn.
    + left. exists paymentResp. split; [reflexivity|].
      destruct (StepExecutor_ok_inv _ _ _ _ E) as [k Hk].
      exact (child_result_ok env order k _ Hk).
    + right. exists e. repeat split.
  - intros e.
    unfold payment_failed_with, fulfilment_invoked, notification_invoked.
    wf_run.
    all: intros [(req & waits & H)|(id & H)]; trace_inv H.
    all: repeat split; try reflexivity;
      try (intros (o & H); try destruct H as (b & H); trace_inv H).
Qed.

Lemma payment_failure_is_fatal_witness :
  payment_failed_with (errorString "activity StartToClose timeout")
                      (trace (final unpaid order1))
  /\ Status (state (final unpaid order1)) = StatusFailed
  /\ PaymentStatus (state (final unpaid order1)) = "failed"
  /\ outcome unpaid order1 = Some (errorString "activity StartToClose timeout")
  /\ ~ fulfilment_invoked (trace (final unpaid order1))
  /\ ~ notification_invoked (trace (final unpaid order1)).
Proof.
  assert (H : payment_failed_with (errorString "activity StartToClose timeout")
                                  (trace (final unpaid order1))).
  { right. exists "payment-ORD-1". vm_compute. trace_find. }
  split; [exact H|].
  exact (proj2 (proj2 (payment_failure_is_fatal unpaid order1)) _ H).
Defined.

(** C3. In every execution of OrderWorkflow, every assignment to Status,
    Stage, IsExpedited or PaymentStatus of the projection is followed by the
    update of LastUpdated with nothing but further assignments in between:
    when a step is invoked or settles, when a coroutine suspends and when
    the workflow function returns, no mutation is without its timestamp.
    The update writes the workflow clock: at every timestamp update, in the
    workflow function and in the signal closures, the projection a query
    would be answered with has the clock of that moment in LastUpdated; the
    clock does not move between a mutation and the event that follows it;
    and when the workflow function returns, LastUpdated is the clock of the
    return. *)
Theorem every_mutation_is_stamped (env : Env) (order : Order) :
  stamped (trace (final env order)) = true
  /\ timestamped (now (final env order)) (trace (final env order))
                 (observed (final env order)) = true
  /\ LastUpdated (state (final env order)) = now (final env order).
Proof.
  wf_unfold;
  repeat wf_step_with ltac:(try use_observed; try note_observed);
  try use_observed;
  cbn -[suspended StepExecutor resolve Nat.ltb In] in *.
  all: split; [stamp_solver | split; [time_solver | reflexivity]].
Qed.

(** C4. The claim has the saga stop at the checkpoint before validation
    when a cancel signal was sent before validation starts. The code does
    not: with a cancel signal waiting when the instance starts, ValidateOrder
    is invoked all the same; when validation accepts the order the saga is
    cancelled only at the checkpoint after validation, and when validation
    rejects it the saga ends failed, not cancelled. *)
Theorem cancel_before_validation_is_not_seen :
  validation_invoked order1 (trace (final cancelled_early order1))
  /\ Status (state (final cancelled_early order1)) = StatusCancelled
  /\ validation_invoked order2 (trace (final cancelled_early_rejecting order2))
  /\ Status (state (final cancelled_early_rejecting order2)) = StatusFailed
  /\ outcome cancelled_early_rejecting order2
     = Some (errorString "order validation failed: Amount exceeds maximum allowed").
Proof.
  unfold validation_invoked.
  split; [vm_compute; trace_find|].
  split; [reflexivity|].
  split; [vm_compute; trace_find|].
  split; reflexivity.
Qed.



(** C6. The fulfilment step is invoked with the order and with the expedite
    flag as it stands when the step starts: the flag is true exactly when
    an expedite signal was handled before, one that was waiting when the
    instance started or that arrived while validation or payment was
    awaited. Signals that arrive once the fulfilment step has started
    change nothing in that invocation. *)
Theorem fulfilment_reads_expedite_at_start (env : Env) (order : Order) :
  (forall o b,
      In (Invoke (ProcessOrderCall o b)) (trace (final env order)) ->
      o = order /\ b = expedited_before_fulfilment env)
  /\ (forall during_fulfilment during_notification o b,
         In (Invoke (ProcessOrderCall o b))
            (trace (final (late_signals during_fulfilment during_notification env)
                          order)) ->
         b = expedited_before_fulfilment env).
Proof.
  assert (H1 : forall env o b,
             In (Invoke (ProcessOrderCall o b)) (trace (final env order)) ->
             o = order /\ b = expedited_before_fulfilment env).
  { clear env. intros env o b. unfold expedited_before_fulfilment.
    wf_run.
    all: intros H; trace_inv H.
    all: rewrite count_received; split; reflexivity. }
  split; [apply H1|].
  intros lf ln o b H. apply H1 in H. destruct H as [_ ->]. reflexivity.
Qed.

Lemma fulfilment_reads_expedite_at_start_witness :
  (order1 = order1 /\ true = expedited_before_fulfilment expedited_early)
  /\ false = expedited_before_fulfilment healthy
  /\ IsExpedited (state (final expedited_late order1)) = true.
Proof.
  split; [|split].
  - apply (proj1 (fulfilment_reads_expedite_at_start expedited_early order1)).
    vm_compute. trace_find.
  - apply (proj2 (fulfilment_reads_expedite_at_start healthy order1)
                 [(SignalExpedite, 350)] [] order1).
    vm_compute. trace_find.
  - reflexivity.
Defined.

(** C7. The legacy branch and the child-workflow branch hand the same
    PaymentRequest, built from the order's id and amount, to ProcessPayment,
    and deliver the same PaymentResponse to what follows in OrderWorkflow:
    when the payment step comes to a response, both branches continue with
    that response, and the instances they continue with differ in their
    traces only. The same holds for a failure when the step comes to the
    same result in every run of the child. *)
Theorem payment_branches_agree (env : Env) (ctx : Context) (order : Order) (s : Store) :
  ActivityOptions_RetryPolicy (activityOptions ctx) = stepPolicy ->
  (forall paymentResp,
      snd (StepExecutor stepPolicy
             (ProcessPayment_attempt env 0%nat (paymentReq_of order)))
      = Ok paymentResp ->
      fst (payment_via_activity env ctx order s) = Next paymentResp
      /\ fst (payment_via_child env ctx order s) = Next paymentResp
      /\ same_but_trace (snd (payment_via_activity env ctx order s))
                        (snd (payment_via_child env ctx order s)))
  /\ (forall r,
         (forall run,
             snd (StepExecutor stepPolicy
                    (ProcessPayment_attempt env run (paymentReq_of order)))
             = r) ->
         fst (payment_via_activity env ctx order s)
         = fst (payment_via_child env ctx order s)
         /\ same_but_trace (snd (payment_via_activity env ctx order s))
                           (snd (payment_via_child env ctx order s)))
  /\ In (Invoke (ProcessPaymentCall (paymentReq_of order)))
        (trace (snd (payment_via_activity env ctx order s)))
  /\ (forall run,
         In (Invoke (ProcessPaymentCall (paymentReq_of order)))
            (trace (snd (child_run env order run)))).
Proof.
  intros Hp. split; [|split; [|split]].
  - intros paymentResp Hok.
    destruct (branches_same_result env ctx order s (Ok paymentResp) Hp Hok
                (child_first_ok env order paymentResp Hok)) as (H1 & H2 & H3).
    split; [exact H3 | split; [rewrite <- H1; exact H3 | exact H2]].
  - intros r Hr.
    destruct (branches_same_result env ctx order s r Hp (Hr 0%nat)
                (child_constant env order r Hr)) as (H1 & H2 & _).
    split; assumption.
  - apply activity_branch_request.
  - apply child_branch_request.
Qed.

Lemma payment_branches_agree_witness :
  fst (payment_via_activity healthy stepContext order1 (initial_store healthy))
  = Next paid1
  /\ fst (payment_via_child healthy stepContext order1 (initial_store healthy))
     = Next paid1.
Proof.
  destruct (payment_branches_agree healthy stepContext order1 (initial_store healthy)
                                   eq_refl) as (Hok & _).
  destruct (Hok paid1 eq_refl) as (H1 & H2 & _).
  split; [exact H1 | exact H2].
Defined.

(** C8. When the notification step is reached, the saga returns no error
    and ends with status completed and stage completed, whatever the step
    comes to; and what the step comes to changes neither the returned value
    nor the projection: an execution in which NotifyOrderComplete fails ends
    as the one in which it succeeds. *)
Theorem notification_failure_is_not_fatal (env : Env) (order : Order) :
  notification_invoked (trace (final env order)) ->
  (outcome env order = None
   /\ Status (state (final env order)) = StatusCompleted
   /\ Stage (state (final env order)) = StageCompleted)
  /\ forall f,
      outcome (with_notification f env) order = outcome env order
      /\ state (final (with_notification f env) order) = state (final env order).
Proof.
  intros Hn. split.
  - revert Hn. unfold notification_invoked. wf_run.
    all: intros (o & H); trace_inv H.
    all: repeat split.
  - clear Hn. intros f. wf_unfold.
    repeat wf_step_with
           ltac:(rewrite ?suspended_notification, ?child_result_notification).
    all: cbn.
    all: split; reflexivity.
Qed.

Lemma notification_failure_is_not_fatal_witness :
  notification_invoked (trace (final unnotified order1))
  /\ (outcome unnotified order1 = None
      /\ Status (state (final unnotified order1)) = StatusCompleted
      /\ Stage (state (final unnotified order1)) = StageCompleted)
  /\ state (final (with_notification (fun _ => Ran tt) unnotified) order1)
     = state (final unnotified order1).
Proof.
  assert (H : notification_invoked (trace (final unnotified order1))).
  { exists order1. vm_compute. trace_find. }
  destruct (notification_failure_is_not_fatal unnotified order1 H) as (H1 & H2).
  split; [exact H | split; [exact H1 | exact (proj2 (H2 (fun _ => Ran tt)))]].
Defined.

(** C9. ProcessPayment never fails: for every request it returns a nil
    error and a response with Success true, the message "Payment processed
    successfully" and a transaction id that is "TXN-", the order id of the
    request, "-" and a suffix. *)
Theorem ProcessPayment_always_succeeds (unix : Z) (paymentReq : PaymentRequest) :
  snd (activities.ProcessPayment unix paymentReq) = None
  /\ Success (fst (activities.ProcessPayment unix paymentReq)) = true
  /\ Message (fst (activities.ProcessPayment unix paymentReq))
     = "Payment processed successfully"
  /\ exists suffix,
      TransactionID (fst (activities.ProcessPayment unix paymentReq))
      = ("TXN-" ++ PaymentRequest_OrderID paymentReq ++ "-" ++ suffix)%string.
Proof.
  repeat split. exists (itoa unix). reflexivity.
Qed.

(** C10. When the query handler is registered, ValidateOrder is invoked:
    the oldest events of every execution are the assignments of the
    validation step, their timestamp, the invocation of ValidateOrder and
    only then the first suspension of the workflow function. Nothing
    suspends between the creation of the cancel handler and the first
    cancellation check, so that check never finds the flag set, whatever
    signals were sent before, and the saga is never cancelled before
    validation is invoked. *)
Theorem validation_is_always_invoked (env : Env) (order : Order) :
  SetQueryHandler_result env = None ->
  exists newer,
    trace (final env order)
    = newer ++ [Suspend Main; Invoke (ValidateOrderCall order);
                Stamp; Assign FStage; Assign FStatus].
Proof.
  intros Hq. wf_run; try congruence; ends_with.
Qed.

Lemma validation_is_always_invoked_witness :
  exists newer,
    trace (final cancelled_early order1)
    = newer ++ [Suspend Main; Invoke (ValidateOrderCall order1);
                Stamp; Assign FStage; Assign FStatus].
Proof.
  exact (validation_is_always_invoked cancelled_early order1 eq_refl).
Defined.

(** ** Further properties of the saga *)

Lemma steps_started_quiet (ext l : list Event) :
  Forall quiet ext -> steps_started (ext ++ l) = steps_started l.
Proof.
  induction 1 as [|e ext He _ IH]; [reflexivity|].
  cbn. destruct e as [[]| | | | | | |]; cbn in He; try contradiction; exact IH.
Qed.

Ltac steps_solver :=
  repeat first
    [ rewrite steps_started_quiet by assumption
    | progress cbn [steps_started starts] ].

(** X1. Once the query handler is registered, a saga ends in one of six
    ways: failed at validation, cancelled after validation, failed at
    payment, cancelled after payment, failed at fulfilment, or completed,
    each with its stage and its payment status. It returns an error exactly
    when it ends failed, and the projection carries the id of the order. *)
Theorem saga_endings (env : Env) (order : Order) :
  SetQueryHandler_result env = None ->
  In (ending env order) endings /\ OrderID (state (final env order)) = ID order.
Proof.
  intros Hq. unfold ending, endings.
  wf_run; try congruence.
  all: split; [|reflexivity].
  all: simpl; tauto.
Qed.

Lemma saga_endings_witness :
  SetQueryHandler_result healthy = None
  /\ In (ending healthy order1) endings
  /\ OrderID (state (final healthy order1)) = ID order1.
Proof. split; [reflexivity | apply (saga_endings healthy order1); reflexivity]. Defined.

(** X2. The steps of a saga are started in the order validation, payment,
    fulfilment, notification, each at most once and none before the one
    before it: the steps started are the first n of that list for some n up
    to four, and they are all four exactly when the saga ends completed. *)
Theorem steps_are_started_in_order (env : Env) (order : Order) :
  (exists n : nat,
      (n <= 4)%nat
      /\ rev (steps_started (trace (final env order))) = firstn n saga)
  /\ (rev (steps_started (trace (final env order))) = saga
      <-> Status (state (final env order)) = StatusCompleted).
Proof.
  wf_run.
  all: steps_solver.
  all: split;
    [ first [ exists 0%nat; split; [lia | reflexivity]
            | exists 1%nat; split; [lia | reflexivity]
            | exists 2%nat; split; [lia | reflexivity]
            | exists 3%nat; split; [lia | reflexivity]
            | exists 4%nat; split; [lia | reflexivity] ]
    | split; intros H; first [ reflexivity | discriminate H ] ].
Qed.

(** X3. A saga ends cancelled only if a cancel signal was handled before
    the fulfilment step started (it was waiting at the start, or it arrived
    while validation or payment was awaited); it then returns no error and
    neither fulfilment nor notification is invoked. A cancel signal that
    arrives once fulfilment has started is never honoured. *)
Theorem cancelled_only_before_fulfilment (env : Env) (order : Order) :
  Status (state (final env order)) = StatusCancelled ->
  cancelled_before_fulfilment env = true
  /\ outcome env order = None
  /\ ~ fulfilment_invoked (trace (final env order))
  /\ ~ notification_invoked (trace (final env order)).
Proof.
  unfold cancelled_before_fulfilment, fulfilment_invoked, notification_invoked.
  rewrite <- count_received.
  wf_run; try discriminate.
  all: intros _.
  all: repeat split; try (intros (? & ? & Hin); trace_inv Hin);
       try (intros (? & Hin); trace_inv Hin).
  all: repeat match goal with H : _ || _ = true |- _ => revert H end.
  all: try (intros; btauto).
  all: cbn [Nat.ltb Nat.leb orb]; auto.
Qed.

Lemma cancelled_only_before_fulfilment_witness :
  Status (state (final cancelled_early order1)) = StatusCancelled
  /\ cancelled_before_fulfilment cancelled_early = true
  /\ outcome cancelled_early order1 = None
  /\ ~ fulfilment_invoked (trace (final cancelled_early order1))
  /\ ~ notification_invoked (trace (final cancelled_early order1)).
Proof.
  split; [reflexivity|].
  apply (cancelled_only_before_fulfilment cancelled_early order1); reflexivity.
Defined.

(** X4. A saga that ends cancelled at the payment stage has taken the
    payment: the payment branch settled without an error while the cancel
    signal arrived, the payment status stays "completed", and no step is
    started after the payment, none that would undo it either. *)
Theorem cancel_after_payment_keeps_the_payment (env : Env) (order : Order) :
  Status (state (final env order)) = StatusCancelled ->
  Stage (state (final env order)) = StagePayment ->
  payment_settled (trace (final env order))
  /\ PaymentStatus (state (final env order)) = "completed"%string
  /\ received_during env AwaitPayment SignalCancel = true
  /\ rev (steps_started (trace (final env order))) = [AwaitValidateOrder; AwaitPayment].
Proof.
  unfold payment_settled.
  wf_run; try discriminate.
  all: intros _ _.
  all: steps_solver.
  all: repeat split; auto.
  all: try (left; do 2 eexists; trace_find; fail).
  all: try (right; eexists; trace_find; fail).
Qed.

Lemma cancel_after_payment_keeps_the_payment_witness :
  Status (state (final cancelled_late order1)) = StatusCancelled
  /\ Stage (state (final cancelled_late order1)) = StagePayment
  /\ payment_settled (trace (final cancelled_late order1))
  /\ PaymentStatus (state (final cancelled_late order1)) = "completed"%string
  /\ received_during cancelled_late AwaitPayment SignalCancel = true
  /\ rev (steps_started (trace (final cancelled_late order1)))
     = [AwaitValidateOrder; AwaitPayment].
Proof.
  split; [reflexivity | split; [reflexivity|]].
  apply (cancel_after_payment_keeps_the_payment cancelled_late order1); reflexivity.
Defined.

(** X5. A failure of the fulfilment step is fatal and leaves the payment
    as it is: when ProcessOrder settles with an error, the saga returns
    that error and ends failed at the processing stage with payment status
    "completed", the payment having settled; notification is never
    invoked. *)
Theorem fulfilment_failure_is_fatal (env : Env) (order : Order) (e : error) :
  (exists order' isExpedited waits,
      In (Settled (ProcessOrderCall order' isExpedited) waits (Some e))
         (trace (final env order))) ->
  outcome env order = Some e
  /\ Status (state (final env order)) = StatusFailed
  /\ Stage (state (final env order)) = StageProcessing
  /\ PaymentStatus (state (final env order)) = "completed"%string
  /\ payment_settled (trace (final env order))
  /\ ~ notification_invoked (trace (final env order)).
Proof.
  unfold payment_settled, notification_invoked.
  wf_run.
  all: intros (order' & isExpedited & waits & Hin); trace_inv Hin.
  all: repeat split; try (intros (? & Hin); trace_inv Hin).
  all: try (left; do 2 eexists; trace_find; fail).
  all: try (right; eexists; trace_find; fail).
Qed.

Lemma fulfilment_failure_is_fatal_witness :
  (exists order' isExpedited waits,
      In (Settled (ProcessOrderCall order' isExpedited) waits
                  (Some (errorString "context canceled")))
         (trace (final unfulfilled order1)))
  /\ outcome unfulfilled order1 = Some (errorString "context canceled")
  /\ Status (state (final unfulfilled order1)) = StatusFailed
  /\ Stage (state (final unfulfilled order1)) = StageProcessing
  /\ PaymentStatus (state (final unfulfilled order1)) = "completed"%string
  /\ payment_settled (trace (final unfulfilled order1))
  /\ ~ notification_invoked (trace (final unfulfilled order1)).
Proof.
  assert (H : exists order' isExpedited waits,
             In (Settled (ProcessOrderCall order' isExpedited) waits
                         (Some (errorString "context canceled")))
                (trace (final unfulfilled order1))).
  { exists order1, false, [Second; 2 * Second]. vm_compute. trace_find. }
  split; [exact H|].
  exact (fulfilment_failure_is_fatal unfulfilled order1 (errorString "context canceled") H).
Defined.

(** X6. When the engine refuses the query handler, OrderWorkflow returns
    that error at once: no step is invoked, nothing of the projection is
    changed after its initialisation (it stays pending, even with a cancel
    signal waiting), and no handler is registered. *)
Theorem query_handler_failure_stops_the_saga (env : Env) (order : Order) (err : error) :
  SetQueryHandler_result env = Some err ->
  outcome env order = Some err
  /\ trace (final env order) = [Completed]
  /\ state (final env order)
     = {| OrderID := ID order; Status := StatusPending; Stage := StageValidation;
          IsExpedited := false; PaymentStatus := "pending";
          LastUpdated := started_at env |}
  /\ queryHandlers (final env order) = [].
Proof.
  intros Hq. wf_run; try congruence.
  repeat split. injection Hq as ->. reflexivity.
Qed.

Lemma query_handler_failure_stops_the_saga_witness :
  SetQueryHandler_result unqueryable = Some (errorString "query handler refused")
  /\ outcome unqueryable order1 = Some (errorString "query handler refused")
  /\ trace (final unqueryable order1) = [Completed]
  /\ state (final unqueryable order1)
     = {| OrderID := ID order1; Status := StatusPending; Stage := StageValidation;
          IsExpedited := false; PaymentStatus := "pending";
          LastUpdated := started_at unqueryable |}
  /\ queryHandlers (final unqueryable order1) = [].
Proof.
  split; [reflexivity|].
  apply (query_handler_failure_stops_the_saga unqueryable order1); reflexivity.
Defined.

(** X7. The expedite flag of the projection is set by an expedite signal
    only and is never cleared: an expedite signal that was waiting at the
    start or arrived during validation leaves the flag set however the saga
    ends, and a saga that ends with the flag set has handled an expedite
    signal. *)
Theorem expedite_flag_is_set_by_the_signal_only (env : Env) (order : Order) :
  SetQueryHandler_result env = None ->
  (received SignalExpedite (buffered_signals env)
   || received_during env AwaitValidateOrder SignalExpedite = true ->
   IsExpedited (state (final env order)) = true)
  /\ (IsExpedited (state (final env order)) = true -> expedite_received env = true).
Proof.
  intros Hq. unfold expedite_received. rewrite <- count_received.
  wf_run; try congruence.
  all: split; intros Hx; try exact Hx.
  all: try (rewrite ?Hx, ?orb_true_r; reflexivity).
  all: try (cbn [Nat.ltb Nat.leb orb] in *; rewrite ?Hx, ?orb_true_r, ?orb_true_l; reflexivity).
Qed.

Lemma expedite_flag_is_set_by_the_signal_only_witness :
  SetQueryHandler_result expedited_early = None
  /\ (received SignalExpedite (buffered_signals expedited_early)
      || received_during expedited_early AwaitValidateOrder SignalExpedite = true ->
      IsExpedited (state (final expedited_early order1)) = true)
  /\ (IsExpedited (state (final expedited_early order1)) = true ->
      expedite_received expedited_early = true).
Proof.
  split; [reflexivity|].
  apply (expedite_flag_is_set_by_the_signal_only expedited_early order1); reflexivity.
Defined.

Lemma later_checkpoints_stop_the_saga_witness :
  ((Status (state (final cancelled_early order1)) = StatusCancelled
    /\ outcome cancelled_early order1 = None)
   /\ ~ payment_invoked (trace (final cancelled_early order1))
   /\ ~ fulfilment_invoked (trace (final cancelled_early order1)))
  /\ ((Status (state (final cancelled_early_rejecting order2)) = StatusFailed
       /\ outcome cancelled_early_rejecting order2
          = Some (errorString
                    "order validation failed: Amount exceeds maximum allowed"))
      /\ ~ payment_invoked (trace (final cancelled_early_rejecting order2))
      /\ ~ fulfilment_invoked (trace (final cancelled_early_rejecting order2)))
  /\ (Status (state (final cancelled_late order1)) = StatusCancelled
      /\ PaymentStatus (state (final cancelled_late order1)) = "completed"
      /\ outcome cancelled_late order1 = None)
  /\ ~ fulfilment_invoked (trace (final cancelled_late order1)).
Proof.
  split; [|split; [|split]].
  - exact (proj1 (later_checkpoints_stop_the_saga cancelled_early order1 eq_refl)
                 eq_refl).
  - exact (proj1 (later_checkpoints_stop_the_saga cancelled_early_rejecting order2
                                                  eq_refl)
                 eq_refl).
  - apply (proj2 (later_checkpoints_stop_the_saga cancelled_late order1 eq_refl)
                 eq_refl).
    vm_compute.
    first [ left; do 2 eexists; trace_find; fail | right; eexists; trace_find; fail ].
  - apply (proj2 (later_checkpoints_stop_the_saga cancelled_late order1 eq_refl)
                 eq_refl).
Defined.

(** *** Payment attempts *)

Lemma StepExecutor_ok_iff {A : Type} (step : nat -> result A) :
  (exists a, snd (StepExecutor stepPolicy step) = Ok a)
  <-> exists n a, (n < 3)%nat /\ step n = Ok a.
Proof.
  unfold StepExecutor.
  change (Z.to_nat (MaximumAttempts stepPolicy) - 1)%nat with 2%nat.
  cbn [attempts].
  destruct (step 0%nat) as [a0|e0] eqn:E0; cbn [snd].
  { split; [intros _; exists 0%nat, a0; split; [lia | exact E0] | eauto]. }
  destruct (step 1%nat) as [a1|e1] eqn:E1; cbn [snd].
  { split; [intros _; exists 1%nat, a1; split; [lia | exact E1] | eauto]. }
  destruct (step 2%nat) as [a2|e2] eqn:E2; cbn [snd].
  { split; [intros _; exists 2%nat, a2; split; [lia | exact E2] | eauto]. }
  split; [intros [a H]; discriminate|].
  intros (n & a & Hn & H).
  destruct n as [|[|[|n]]]; [congruence | congruence | congruence | lia].
Qed.

Lemma ProcessPayment_attempt_runs (env : Env) (run : nat) (paymentReq : PaymentRequest) :
  (exists a, snd (StepExecutor stepPolicy (ProcessPayment_attempt env run paymentReq)) = Ok a)
  <-> payment_runs env run.
Proof.
  rewrite StepExecutor_ok_iff. unfold payment_runs, ProcessPayment_attempt, attempt_result.
  split.
  - intros (n & a & Hn & H). destruct (payment_attempt env run n) as [unix|err] eqn:E.
    + exists n, unix. auto.
    + discriminate.
  - intros (n & unix & Hn & H). exists n. rewrite H. cbn. eauto.
Qed.

Lemma child_result_runs (env : Env) (order : Order) :
  (exists a, snd (StepExecutor stepPolicy (child_result env order)) = Ok a)
  <-> exists run, (run < 3)%nat /\ payment_runs env run.
Proof.
  rewrite StepExecutor_ok_iff. split.
  - intros (run & a & Hr & H). exists run. split; [exact Hr|].
    rewrite child_result_step in H.
    apply (ProcessPayment_attempt_runs env run (paymentReq_of order)). eauto.
  - intros (run & Hr & H). apply (ProcessPayment_attempt_runs env run (paymentReq_of order)) in H.
    destruct H as [a H]. exists run, a. split; [exact Hr|]. rewrite child_result_step. exact H.
Qed.

(** What a case assumed of the executor, as the result of the step. *)
Ltac known_result Hiff :=
  match goal with
  | E : StepExecutor _ _ = (_, ?r) |- _ =>
      lazymatch type of Hiff with
      | (exists a, snd (StepExecutor _ ?step) = Ok a) <-> _ =>
          lazymatch type of E with
          | StepExecutor _ ?step' = _ =>
              unify step step';
              let H := fresh "Hres" in
              assert (H : snd (StepExecutor stepPolicy step) = r)
                by (exact (f_equal snd E))
          end
      end
  end.

(** X9. The payment activity itself never fails, so a payment fails only
    by attempts that are lost (timeouts, a lost worker). Delegated to the
    child workflow, the payment has up to nine attempts, three in each of up
    to three runs of the child: it settles exactly when some attempt of some
    run is not lost. Called directly, it has three. *)
Theorem payment_attempts_by_branch (env : Env) (order : Order) :
  (payment_child_started (trace (final env order)) ->
   (payment_settled (trace (final env order))
    <-> exists run, (run < 3)%nat /\ payment_runs env run))
  /\ (payment_activity_invoked (trace (final env order)) ->
      (payment_settled (trace (final env order)) <-> payment_runs env 0)).
Proof.
  pose proof (child_result_runs env order) as Hc.
  pose proof (ProcessPayment_attempt_runs env 0 (paymentReq_of order)) as Ha.
  unfold payment_child_started, payment_activity_invoked, payment_settled.
  split.
  - wf_run.
    all: intros (? & ? & ? & Hin); trace_inv Hin.
    all: known_result Hc; rewrite Hres in Hc; rewrite <- Hc.
    all: split;
      [ intros [(? & ? & Hin)|(? & Hin)]; trace_inv Hin; eauto
      | intros [? Hok]; try discriminate Hok; right; eexists; trace_find ].
  - wf_run.
    all: intros (? & Hin); trace_inv Hin.
    all: known_result Ha; rewrite Hres in Ha; rewrite <- Ha.
    all: split;
      [ intros [(? & ? & Hin)|(? & Hin)]; trace_inv Hin; eauto
      | intros [? Hok]; try discriminate Hok; left; do 2 eexists; trace_find ].
Qed.

Lemma payment_attempts_by_branch_witness :
  payment_settled (trace (final flaky order1))
  /\ ~ payment_settled (trace (final (with_markers {[ payment_change := DefaultVersion ]}
                                                   flaky) order1)).
Proof.
  split.
  - apply (proj1 (payment_attempts_by_branch flaky order1)).
    + exists "payment-ORD-1"%string, PaymentWorkflowName, order1. vm_compute. trace_find.
    + exists 2%nat. split; [lia|]. exists 2%nat, 1700000000. split; [lia | reflexivity].
  - intros Hs.
    apply (proj2 (payment_attempts_by_branch
                    (with_markers {[ payment_change := DefaultVersion ]} flaky) order1))
      in Hs.
    + destruct Hs as (n & unix & Hn & Hs).
      destruct n as [|[|[|n]]]; discriminate Hs.
    + exists (paymentReq_of order1). vm_compute. trace_find.
Defined.

(** *** Fulfilment under a deadline *)

Lemma hurried_expedited (env : Env) (order : Order) :
  hurried env ->
  StepExecutor stepPolicy (ProcessOrder_attempt env order true) = ([], Ok tt).
Proof.
  intros H. apply StepExecutor_first_ok.
  destruct (H 0%nat) as (after & err & E & Ha).
  unfold ProcessOrder_attempt, attempt_result. rewrite E.
  unfold activities.ProcessOrder, activities.processingTime.
  destruct (Z.ltb_spec after (1 * Second)); [lia | reflexivity].
Qed.

Lemma hurried_normal (env : Env) (order : Order) :
  hurried env ->
  exists e, StepExecutor stepPolicy (ProcessOrder_attempt env order false)
            = ([Second; 2 * Second], Fail e).
Proof.
  intros H.
  assert (Hf : forall n, exists e, ProcessOrder_attempt env order false n = Fail e).
  { intros n. destruct (H n) as (after & err & E & Ha).
    unfold ProcessOrder_attempt, attempt_result. rewrite E.
    unfold activities.ProcessOrder, activities.processingTime.
    destruct (Z.ltb_spec after (2 * Second)); [eexists; reflexivity | lia]. }
  destruct (Hf 0%nat) as [e0 H0], (Hf 1%nat) as [e1 H1], (Hf 2%nat) as [e2 H2].
  exists e2. exact (StepExecutor_exhausted _ e0 e1 e2 H0 H1 H2).
Qed.

(** X10. The expedite signal changes what ProcessOrder does: it works for
    1 s instead of 2 s. When every attempt of the fulfilment step has its
    context done between 1 s and 2 s after its start, a saga that reaches
    fulfilment ends completed exactly when an expedite signal was handled
    before the step started. *)
Theorem expedite_saves_a_hurried_fulfilment (env : Env) (order : Order) :
  hurried env ->
  fulfilment_invoked (trace (final env order)) ->
  (Status (state (final env order)) = StatusCompleted
   <-> expedited_before_fulfilment env = true).
Proof.
  intros Hh.
  pose proof (hurried_expedited env order Hh) as Ht.
  destruct (hurried_normal env order Hh) as [e Hf].
  unfold fulfilment_invoked.
  destruct (expedited_before_fulfilment env) eqn:Hb;
    unfold expedited_before_fulfilment in Hb; rewrite <- count_received in Hb.
  all: wf_run.
  all: intros (o & b & Hin); trace_inv Hin.
  all: change (0 <? 0)%nat with false in *; cbn [orb] in *.
  all: match goal with
       | E : StepExecutor _ (fun n => attempt_result
                                        (fun ctxDone => _ (activities.ProcessOrder ctxDone _ _))
                                        _) = (_, _ _) |- _ =>
           rewrite Hb in E;
           first [ pose proof (eq_trans (eq_sym Ht) E) as HH
                 | pose proof (eq_trans (eq_sym Hf) E) as HH ];
           try discriminate HH
       end.
  all: split; first [reflexivity | discriminate].
Qed.

Lemma expedite_saves_a_hurried_fulfilment_witness :
  Status (state (final unfulfilled_expedited order1)) = StatusCompleted
  /\ Status (state (final unfulfilled order1)) <> StatusCompleted.
Proof.
  assert (Hh : forall env, fulfilment_attempt env
                           = (fun _ => Ran (Some (1500000000, errorString "context canceled")))
                           -> hurried env).
  { intros env E n. rewrite E. eexists _, _. split; [reflexivity|]. unfold Second. lia. }
  split.
  - apply (expedite_saves_a_hurried_fulfilment unfulfilled_expedited order1).
    + apply Hh. reflexivity.
    + exists order1, true. vm_compute. trace_find.
    + reflexivity.
  - intros Hs.
    apply (expedite_saves_a_hurried_fulfilment unfulfilled order1) in Hs.
    + discriminate Hs.
    + apply Hh. reflexivity.
    + exists order1, false. vm_compute. trace_find.
Defined.

(** ** Further properties of the activities *)

(** X11. ValidateOrder returns a response exactly when the amount of the
    order is a finite number, the service answers the request made of the
    id, amount and items of the order with status 200, and the body decodes;
    the response is then the decoded body as it is, whether it says valid
    or not. In every other case it returns an error. *)
Theorem ValidateOrder_returns_a_response_iff
        (post : ValidationRequest -> activities.HTTPExchange) (order : Order)
        (validationResp : ValidationResponse) :
  activities.ValidateOrder post order = Ok validationResp
  <-> float64_exponent (Amount order) <> 2047
      /\ exists body,
           post (validationReq_of order)
           = activities.Response activities.StatusOK body (Ok validationResp).
Proof.
  unfold activities.ValidateOrder, activities.json_Marshal.
  fold (validationReq_of order). cbn [ValidationRequest_Amount validationReq_of].
  destruct (Z.eqb_spec (float64_exponent (Amount order)) 2047) as [He|He].
  - split; [discriminate | intros [H _]; contradiction].
  - destruct (post (validationReq_of order)) as [c|c|code c|code body decoded].
    1-3: split; [discriminate | intros [_ [body H]]; discriminate].
    destruct (Z.eqb_spec code activities.StatusOK) as [->|Hc]; cbn [negb].
    + destruct decoded as [v|e].
      * split.
        -- intros H. injection H as ->. split; [exact He | exists body; reflexivity].
        -- intros [_ [body' H]]. injection H as _ ->. reflexivity.
      * split; [discriminate | intros [_ [body' H]]; discriminate].
    + split; [discriminate | intros [_ [body' H]]; injection H as ? _ _; contradiction].
Qed.

Lemma digits_of_uint (d : Decimal.uint) : digits (NilEmpty.string_of_uint d) = true.
Proof. induction d; cbn; auto. Qed.

Lemma itoa_digits (z : Z) : 0 <= z -> digits (itoa z) = true.
Proof.
  intros Hz. unfold itoa. destruct z as [|p|p]; [reflexivity| |lia].
  cbn [Z.to_int NilZero.string_of_int]. unfold NilZero.string_of_uint.
  pose proof (digits_of_uint (Pos.to_uint p)) as H.
  destruct (Pos.to_uint p); first [reflexivity | exact H].
Qed.

Lemma to_int_nonnil (z : Z) :
  Z.to_int z <> Decimal.Pos Decimal.Nil /\ Z.to_int z <> Decimal.Neg Decimal.Nil.
Proof.
  destruct z as [|p|p]; cbn; split; try discriminate;
    intros E; injection E as E; exact (Unsigned.to_uint_nonnil p E).
Qed.

Lemma itoa_inj (z z' : Z) : itoa z = itoa z' -> z = z'.
Proof.
  unfold itoa. intros H. apply DecimalZ.to_int_inj.
  destruct (to_int_nonnil z) as [H1 H2], (to_int_nonnil z') as [H1' H2'].
  pose proof (NilZero.isi _ H1 H2) as E. pose proof (NilZero.isi _ H1' H2') as E'.
  rewrite H in E. congruence.
Qed.

Lemma split_at_last_dash (a b d e : string) :
  digits d = true -> digits e = true ->
  (a ++ String "-" d)%string = (b ++ String "-" e)%string -> a = b /\ d = e.
Proof.
  intros Hd He. revert b.
  assert (Hno : forall pre post s, digits s = true -> s <> (pre ++ String "-" post)%string).
  { intros pre. induction pre as [|c pre IH]; intros post s Hs E; subst s.
    - cbn in Hs. discriminate.
    - change (digits (String c (pre ++ String "-" post)) = true) in Hs.
      cbn [digits] in Hs. apply andb_prop in Hs as [_ Hs]. exact (IH post _ Hs eq_refl). }
  induction a as [|c a IH]; intros [|c' b] E.
  - injection E as ->. auto.
  - change (String "-" d = String c' (b ++ String "-" e)) in E.
    injection E as _ E. exfalso. exact (Hno b e d Hd E).
  - change (String c (a ++ String "-" d) = String "-" e) in E.
    injection E as _ E. exfalso. exact (Hno a d e He (eq_sym E)).
  - change (String c (a ++ String "-" d) = String c' (b ++ String "-" e)) in E.
    injection E as -> E. destruct (IH b E) as [-> ->]. auto.
Qed.

(** X12. With a clock that is not before 1970, the transaction id of a
    payment tells the order and the second apart: two payments have the
    same transaction id only for the same order id in the same second (the
    amount has no part in it). *)
Theorem TransactionID_identifies_order_and_second
        (unix unix' : Z) (paymentReq paymentReq' : PaymentRequest) :
  0 <= unix -> 0 <= unix' ->
  TransactionID (fst (activities.ProcessPayment unix paymentReq))
  = TransactionID (fst (activities.ProcessPayment unix' paymentReq')) ->
  PaymentRequest_OrderID paymentReq = PaymentRequest_OrderID paymentReq'
  /\ unix = unix'.
Proof.
  intros Hu Hu'. unfold activities.ProcessPayment. cbn [fst TransactionID].
  change ("TXN-" ++ ?x)%string with (String "T" (String "X" (String "N" (String "-" x)))).
  intros E. injection E as E.
  change ("-" ++ ?x)%string with (String "-" x) in E.
  destruct (split_at_last_dash _ _ _ _ (itoa_digits _ Hu) (itoa_digits _ Hu') E) as [Ha Hd].
  split; [exact Ha | exact (itoa_inj _ _ Hd)].
Qed.

Lemma TransactionID_identifies_order_and_second_witness :
  0 <= 1700000000 /\ 0 <= 1700000000
  /\ PaymentRequest_OrderID (mkPaymentRequest "ORD-1" 4636737291354636288)
     = PaymentRequest_OrderID (mkPaymentRequest "ORD-1" 4643017701772492800)
  /\ 1700000000 = 1700000000.
Proof.
  split; [lia | split; [lia|]].
  apply (TransactionID_identifies_order_and_second
           1700000000 1700000000
           (mkPaymentRequest "ORD-1" 4636737291354636288)
           (mkPaymentRequest "ORD-1" 4643017701772492800)); [lia | lia | reflexivity].
Defined.

(** Before 1970 the sign of the clock runs into the order id. *)
Example TransactionID_collision_before_1970 :
  TransactionID (fst (activities.ProcessPayment (-1) (mkPaymentRequest "A" 0)))
  = TransactionID (fst (activities.ProcessPayment 1 (mkPaymentRequest "A-" 0))).
Proof. reflexivity. Qed.

(** ** The codec *)

Lemma ReadFull_ok (r : Reader) (n : nat) :
  forall off buf off',
    ReadFull r off n = (Ok buf, off') -> length buf = n /\ off' = (off + n)%nat.
Proof.
  induction n as [|n IH]; intros off buf off'; cbn.
  - intros E. injection E as <- <-. split; [reflexivity | lia].
  - destruct (r off) as [b|err]; [|discriminate].
    destruct (ReadFull r (S off) n) as [[rest|err] off''] eqn:E; [|discriminate].
    intros E'. injection E' as <- <-. destruct (IH _ _ _ E) as [Hl ->]. cbn. split; lia.
Qed.

Lemma ReadFull_total (r : Reader) :
  (forall n, exists b, r n = Ok b) ->
  forall n off, exists buf, ReadFull r off n = (Ok buf, (off + n)%nat).
Proof.
  intros Hr. induction n as [|n IH]; intros off; cbn.
  - exists []. f_equal. lia.
  - destruct (Hr off) as [b ->]. destruct (IH (S off)) as [buf ->].
    exists (b :: buf). f_equal. lia.
Qed.

Lemma labelled_new (encrypted : bytes) :
  labelled {| codec.Metadata :=
                Some {[ "encoding"%string
                        := list_byte_of_string codec.MetadataEncodingEncrypted ]};
              codec.Data := encrypted |} = true.
Proof. unfold labelled, codec.metadata. cbn [codec.Metadata]. vm_compute. reflexivity. Qed.

Lemma unlabelled_all (payloads : list codec.Payload) :
  Forall (fun payload => labelled payload = false) payloads ->
  unlabelled payloads = length payloads.
Proof.
  induction 1 as [|payload payloads Hp _ IH]; cbn; [reflexivity|].
  rewrite Hp, IH. reflexivity.
Qed.

Lemma wired_Data (payload : codec.Payload) :
  codec.Data (codec.wired payload) = codec.Data payload.
Proof.
  unfold codec.wired. destruct (codec.Metadata payload) as [m|]; [|reflexivity].
  destruct (decide (m = ∅)); reflexivity.
Qed.

Lemma wired_metadata (payload : codec.Payload) (name : string) :
  codec.metadata (codec.wired payload) name = codec.metadata payload name.
Proof.
  unfold codec.wired, codec.metadata.
  destruct (codec.Metadata payload) as [m|] eqn:E; [|rewrite E; reflexivity].
  destruct (decide (m = ∅)) as [->|]; cbn [codec.Metadata]; [|rewrite E; reflexivity].
  rewrite lookup_empty. reflexivity.
Qed.

Lemma aes_NewCipher_ok (k block : bytes) :
  codec.aes_NewCipher k = Ok block -> block = k /\ In (length k) [16; 24; 32]%nat.
Proof.
  unfold codec.aes_NewCipher.
  destruct (Nat.eqb_spec (length k) 16) as [->|]; cbn [orb].
  { intros E. injection E as <-. cbn. auto. }
  destruct (Nat.eqb_spec (length k) 24) as [->|]; cbn [orb].
  { intros E. injection E as <-. cbn. auto. }
  destruct (Nat.eqb_spec (length k) 32) as [->|]; cbn [orb].
  { intros E. injection E as <-. cbn. auto. }
  discriminate.
Qed.

Lemma NewEncryptionCodec_ok (k : bytes) (e : codec.EncryptionCodec) :
  codec.NewEncryptionCodec k = Ok e ->
  length k = 32%nat /\ codec.key e = k /\ codec.aes_NewCipher (codec.key e) = Ok (codec.key e).
Proof.
  unfold codec.NewEncryptionCodec.
  destruct (Nat.eqb_spec (length k) 32) as [Hl|]; [|discriminate].
  intros E. injection E as <-. unfold codec.aes_NewCipher. cbn [codec.key]. rewrite Hl. auto.
Qed.

Section CodecFacts.
Context `{codec.Libraries}.
Import codec.

Lemma Encode_shape (e : EncryptionCodec) (r : Reader) (payloads : list Payload) :
  forall off out off',
    Encode e r payloads off = (Ok out, off') ->
    length out = length payloads
    /\ Forall (fun payload => labelled payload = true) out
    /\ off' = (off + 12 * unlabelled payloads)%nat.
Proof.
  induction payloads as [|payload payloads IH]; intros off out off'; cbn [Encode].
  - intros E. injection E as <- <-.
    split; [reflexivity | split; [constructor | cbn; lia]].
  - cbn [unlabelled]. fold (labelled payload).
    destruct (labelled payload) eqn:El.
    + destruct (Encode e r payloads off) as [[result|err] off1] eqn:E; [|discriminate].
      intros E'. injection E' as <- <-.
      destruct (IH _ _ _ E) as (Hl & Hf & ->).
      split; [cbn; lia | split; [constructor; assumption | reflexivity]].
    + destruct (Marshal payload) as [origBytes|err]; [|discriminate].
      unfold encrypt. destruct (aes_NewCipher (key e)) as [block|err]; [|discriminate].
      cbn [cipher_NewGCM NonceSize Seal].
      destruct (ReadFull r off 12) as [[nonce|err] off1] eqn:En; [|discriminate].
      destruct (Encode e r payloads off1) as [[result|err] off2] eqn:E; [|discriminate].
      intros E'. injection E' as <- <-.
      destruct (IH _ _ _ E) as (Hl & Hf & ->).
      destruct (ReadFull_ok _ _ _ _ _ En) as [_ ->].
      split; [cbn; lia | split; [constructor; [apply labelled_new | assumption] | lia]].
Qed.

Lemma Encode_labelled (e : EncryptionCodec) (r : Reader) (payloads : list Payload) (off : nat) :
  Forall (fun payload => labelled payload = true) payloads ->
  Encode e r payloads off = (Ok payloads, off).
Proof.
  induction 1 as [|payload payloads Hl _ IH]; cbn [Encode]; [reflexivity|].
  fold (labelled payload). rewrite Hl, IH. reflexivity.
Qed.

Lemma decrypt_encrypt (e : EncryptionCodec) (r : Reader) (plaintext ciphertext : bytes)
      (off off' : nat) :
  encrypt e r plaintext off = (Ok ciphertext, off') ->
  decrypt e ciphertext = Ok plaintext.
Proof.
  unfold encrypt, decrypt.
  destruct (aes_NewCipher (key e)) as [block|err] eqn:Ek; [|discriminate].
  destruct (aes_NewCipher_ok _ _ Ek) as [-> Hk].
  cbn [cipher_NewGCM NonceSize Seal Open].
  destruct (ReadFull r off 12) as [[nonce|err] off1] eqn:En; [|discriminate].
  destruct (ReadFull_ok _ _ _ _ _ En) as [Hn _].
  intros E. injection E as <- <-.
  rewrite length_app, Hn.
  destruct (Nat.ltb_spec (12 + length (gcm_Seal (key e) nonce plaintext [])) 12) as [Hlt|_];
    [lia|].
  rewrite <- Hn at 1 2. rewrite take_app_length, drop_app_length.
  rewrite gcm_Open_Seal by assumption. reflexivity.
Qed.

Lemma Decode_Encode (e : EncryptionCodec) (r : Reader) (payloads : list Payload) :
  Forall (fun payload => labelled payload = false) payloads ->
  forall off out off',
    Encode e r payloads off = (Ok out, off') ->
    Decode e out = Ok (map wired payloads).
Proof.
  induction 1 as [|payload payloads Hl _ IH]; intros off out off'; cbn [Encode].
  - intros E. injection E as <- <-. reflexivity.
  - fold (labelled payload). rewrite Hl.
    destruct (Marshal payload) as [origBytes|err] eqn:Em; [|discriminate].
    destruct (encrypt e r origBytes off) as [[encrypted|err] off1] eqn:Ee; [|discriminate].
    destruct (Encode e r payloads off1) as [[result|err] off2] eqn:E; [|discriminate].
    intros E'. injection E' as <- <-.
    cbn [Decode map].
    match goal with |- context [metadata ?p "encoding"] => fold (labelled p) end.
    rewrite labelled_new. cbn [negb Data].
    rewrite (decrypt_encrypt _ _ _ _ _ _ Ee), (Unmarshal_Marshal _ _ Em), (IH _ _ _ E).
    reflexivity.
Qed.

Lemma Encode_total (k : bytes) (e : EncryptionCodec) (r : Reader) (payloads : list Payload) :
  NewEncryptionCodec k = Ok e ->
  (forall n, exists b, r n = Ok b) ->
  Forall (fun payload => exists origBytes, Marshal payload = Ok origBytes) payloads ->
  forall off, exists out, Encode e r payloads off = (Ok out, (off + 12 * unlabelled payloads)%nat).
Proof.
  intros Hk Hr Hm.
  destruct (NewEncryptionCodec_ok _ _ Hk) as (_ & _ & Hc).
  induction Hm as [|payload payloads [origBytes Hp] _ IH]; intros off; cbn [Encode unlabelled].
  - exists []. f_equal. lia.
  - fold (labelled payload). destruct (labelled payload).
    + destruct (IH off) as [out ->]. eexists. reflexivity.
    + rewrite Hp. unfold encrypt. rewrite Hc. cbn [cipher_NewGCM NonceSize Seal].
      destruct (ReadFull_total r Hr 12%nat off) as [nonce ->].
      destruct (IH (off + 12)%nat) as [out ->]. eexists. f_equal. lia.
Qed.

Lemma Encode_nonces (e : EncryptionCodec) (r : Reader) (payloads : list Payload) :
  forall off out off',
    Encode e r payloads off = (Ok out, off') ->
    forall i payload new,
      payloads !! i = Some payload -> out !! i = Some new ->
      labelled payload = false ->
      fst (ReadFull r (off + 12 * unlabelled (firstn i payloads)) 12)
      = Ok (firstn 12 (Data new)).
Proof.
  induction payloads as [|p payloads IH]; intros off out off'; cbn [Encode].
  - intros _ i payload new Hp. destruct i; discriminate Hp.
  - fold (labelled p). destruct (labelled p) eqn:El.
    + destruct (Encode e r payloads off) as [[result|err] off1] eqn:E; [|discriminate].
      intros E'. injection E' as <- <-. intros [|i] payload new Hp Hn Hl.
      * cbn in Hp. injection Hp as ->. congruence.
      * cbn [firstn unlabelled]. rewrite El. exact (IH _ _ _ E i payload new Hp Hn Hl).
    + destruct (Marshal p) as [origBytes|err]; [|discriminate].
      unfold encrypt. destruct (aes_NewCipher (key e)) as [block|err]; [|discriminate].
      cbn [cipher_NewGCM NonceSize Seal].
      destruct (ReadFull r off 12) as [[nonce|err] off1] eqn:En; [|discriminate].
      destruct (Encode e r payloads off1) as [[result|err] off2] eqn:E; [|discriminate].
      intros E'. injection E' as <- <-.
      destruct (ReadFull_ok _ _ _ _ _ En) as [Hlen ->].
      intros [|i] payload new Hp Hn Hl.
      * cbn in Hn. injection Hn as <-. cbn [firstn unlabelled Data].
        replace (off + 12 * 0)%nat with off by lia. rewrite En. cbn [fst].
        rewrite <- Hlen at 1. rewrite take_app_length. reflexivity.
      * cbn [firstn unlabelled]. rewrite El.
        replace (off + 12 * (1 + unlabelled (firstn i payloads)))%nat
          with (off + 12 + 12 * unlabelled (firstn i payloads))%nat by lia.
        exact (IH _ _ _ E i payload new Hp Hn Hl).
Qed.

(** X13. When [Encode] succeeds there is one payload for each payload it
    was given, each of them labelled as encrypted: a payload that was
    labelled already is passed on as it is, and any other shows the label
    and nothing else of its metadata. For each payload it encrypts,
    [Encode] reads 12 bytes of [rand.Reader], and these are the nonce the
    data of the new payload begins with: the nonces of a batch are
    consecutive parts of the random stream, none read twice. *)
Theorem Encode_labels_and_hides (e : EncryptionCodec) (r : Reader)
        (payloads out : list Payload) (off off' : nat) :
  Encode e r payloads off = (Ok out, off') ->
  Forall2 (fun payload new =>
             labelled new = true
             /\ if labelled payload then new = payload
                else Metadata new
                     = Some {[ "encoding"%string
                               := list_byte_of_string MetadataEncodingEncrypted ]})
          payloads out
  /\ off' = (off + 12 * unlabelled payloads)%nat
  /\ forall i payload new,
      payloads !! i = Some payload -> out !! i = Some new ->
      labelled payload = false ->
      fst (ReadFull r (off + 12 * unlabelled (firstn i payloads)) 12)
      = Ok (firstn 12 (Data new)).
Proof.
  intros E. split; [|split].
  2: exact (proj2 (proj2 (Encode_shape _ _ _ _ _ _ E))).
  2: exact (Encode_nonces _ _ _ _ _ _ E).
  revert off out off' E.
  induction payloads as [|payload payloads IH]; intros off out off'; cbn [Encode].
  - intros E. injection E as <- <-. constructor.
  - fold (labelled payload). destruct (labelled payload) eqn:El.
    + destruct (Encode e r payloads off) as [[result|err] off1] eqn:E; [|discriminate].
      intros E'. injection E' as <- <-. constructor; [|exact (IH _ _ _ E)].
      cbn beta. rewrite El. split; reflexivity.
    + destruct (Marshal payload) as [origBytes|err]; [|discriminate].
      destruct (encrypt e r origBytes off) as [[encrypted|err] off1]; [|discriminate].
      destruct (Encode e r payloads off1) as [[result|err] off2] eqn:E; [|discriminate].
      intros E'. injection E' as <- <-. constructor; [|exact (IH _ _ _ E)].
      cbn beta. rewrite labelled_new, El. split; reflexivity.
Qed.

(** X14. A payload is never encrypted twice: encoding what [Encode]
    returned changes nothing, under any key, and reads nothing of
    [rand.Reader]. *)
Theorem Encode_is_idempotent (e e' : EncryptionCodec) (r r' : Reader)
        (payloads out : list Payload) (off off' off'' : nat) :
  Encode e r payloads off = (Ok out, off') ->
  Encode e' r' out off'' = (Ok out, off'').
Proof.
  intros E. apply Encode_labelled. exact (proj1 (proj2 (Encode_shape _ _ _ _ _ _ E))).
Qed.

(** X15. The round trip: with a key of 32 bytes, a [rand.Reader] that
    gives bytes and payloads that can be marshalled, none of them labelled
    as encrypted, [Encode] succeeds and [Decode] of its result gives the
    payloads back as their wire format has them, with their data and their
    metadata entries. *)
Theorem Decode_Encode_round_trip (k : bytes) (e : EncryptionCodec) (r : Reader)
        (payloads : list Payload) (off : nat) :
  NewEncryptionCodec k = Ok e ->
  (forall n, exists b, r n = Ok b) ->
  Forall (fun payload => exists origBytes, Marshal payload = Ok origBytes) payloads ->
  Forall (fun payload => labelled payload = false) payloads ->
  exists out decoded,
    Encode e r payloads off = (Ok out, (off + 12 * length payloads)%nat)
    /\ Decode e out = Ok decoded
    /\ decoded = map wired payloads
    /\ map Data decoded = map Data payloads
    /\ forall name, map (fun payload => metadata payload name) decoded
                    = map (fun payload => metadata payload name) payloads.
Proof.
  intros Hk Hr Hm Hl.
  destruct (Encode_total k e r payloads Hk Hr Hm off) as [out E].
  rewrite (unlabelled_all _ Hl) in E. exists out, (map wired payloads).
  split; [exact E|]. split; [exact (Decode_Encode _ _ _ Hl _ _ _ E)|].
  split; [reflexivity|]. split; [|intros name]; rewrite List.map_map; apply List.map_ext.
  - apply wired_Data.
  - intros payload. apply wired_metadata.
Qed.

(** X16. [Decode] returns payloads that are not labelled as encrypted as
    they are, whatever the key of the codec, usable or not: what was
    written before encryption was switched on is still read. *)
Theorem Decode_passes_plain_payloads (e : EncryptionCodec) (payloads : list Payload) :
  Forall (fun payload => labelled payload = false) payloads ->
  Decode e payloads = Ok payloads.
Proof.
  induction 1 as [|payload payloads Hl _ IH]; cbn [Decode]; [reflexivity|].
  fold (labelled payload). rewrite Hl, IH. reflexivity.
Qed.


End CodecFacts.

(** *** The stand-ins *)

Lemma mock_tag_length (key : bytes) : length (mock.tag key) = 16%nat.
Proof. unfold mock.tag. rewrite length_take, length_app, repeat_length. lia. Qed.

Lemma mock_Open_Seal (key nonce plaintext additionalData : bytes) :
  mock.Open key nonce (mock.Seal key nonce plaintext additionalData) additionalData
  = Ok plaintext.
Proof.
  unfold mock.Open, mock.Seal.
  rewrite length_app, mock_tag_length.
  replace (length plaintext + 16 - 16)%nat with (length plaintext) by lia.
  rewrite take_app_length, drop_app_length.
  case_decide; [reflexivity | contradiction].
Qed.

Lemma mock_positive_of_bytes (p : positive) :
  mock.positive_of_bytes (mock.bytes_of_positive p) = p.
Proof. induction p; cbn; congruence. Qed.

Lemma mock_Unmarshal_Marshal (payload : codec.Payload) (origBytes : bytes) :
  mock.Marshal payload = Ok origBytes ->
  mock.Unmarshal origBytes = Ok (codec.wired payload).
Proof.
  unfold mock.Marshal, mock.Unmarshal. intros E. injection E as <-.
  rewrite mock_positive_of_bytes, decode_encode. reflexivity.
Qed.

#[export] Instance mock_Libraries : codec.Libraries :=
  {| codec.gcm_Seal := mock.Seal;
     codec.gcm_Open := mock.Open;
     codec.Marshal := mock.Marshal;
     codec.Unmarshal := mock.Unmarshal;
     codec.gcm_Open_Seal := fun key nonce plaintext additionalData _ _ =>
                              mock_Open_Seal key nonce plaintext additionalData;
     codec.Unmarshal_Marshal := mock_Unmarshal_Marshal |}.

Lemma steady_gives_bytes : forall n, exists b, steady n = Ok b.
Proof. intros n. exists Byte.x07. reflexivity. Qed.

Lemma mock_marshals (payloads : list codec.Payload) :
  Forall (fun payload => exists origBytes, codec.Marshal payload = Ok origBytes) payloads.
Proof. apply List.Forall_forall. intros payload _. eexists. reflexivity. Qed.

Lemma Encode_labels_and_hides_witness :
  exists out,
    codec.Encode (codec.mkEncryptionCodec key32) steady
                 [json_plain "TEST-001"; json_plain "TEST-002"] 0
    = (Ok out, 24%nat)
    /\ Forall2 (fun payload new =>
                  labelled new = true
                  /\ if labelled payload then new = payload
                     else codec.Metadata new
                          = Some {[ "encoding"%string
                                    := list_byte_of_string codec.MetadataEncodingEncrypted ]})
               [json_plain "TEST-001"; json_plain "TEST-002"] out
    /\ forall new,
        out !! 1%nat = Some new ->
        fst (ReadFull steady 12 12) = Ok (firstn 12 (codec.Data new)).
Proof.
  eexists. split; [vm_compute; reflexivity|].
  assert (E : codec.Encode (codec.mkEncryptionCodec key32) steady
                           [json_plain "TEST-001"; json_plain "TEST-002"] 0
              = (Ok _, 24%nat)) by (vm_compute; reflexivity).
  destruct (Encode_labels_and_hides (codec.mkEncryptionCodec key32) steady
              [json_plain "TEST-001"; json_plain "TEST-002"] _ 0 24 E) as (H2 & _ & Hn).
  split; [exact H2|].
  intros new Hnew. exact (Hn 1%nat (json_plain "TEST-002") new eq_refl Hnew eq_refl).
Defined.

Lemma Encode_is_idempotent_witness :
  exists out,
    codec.Encode (codec.mkEncryptionCodec key32) steady [json_plain "TEST-001"] 0
    = (Ok out, 12%nat)
    /\ codec.Encode (codec.mkEncryptionCodec []) broken out 7 = (Ok out, 7%nat).
Proof.
  eexists. split; [vm_compute; reflexivity|].
  refine (Encode_is_idempotent (codec.mkEncryptionCodec key32) (codec.mkEncryptionCodec [])
            steady broken [json_plain "TEST-001"] _ 0 12 7 _).
  vm_compute. reflexivity.
Defined.

Lemma Decode_Encode_round_trip_witness :
  exists out decoded,
    codec.Encode (codec.mkEncryptionCodec key32) steady
                 [json_plain "TEST-001"; json_plain "TEST-002"] 0
    = (Ok out, 24%nat)
    /\ codec.Decode (codec.mkEncryptionCodec key32) out = Ok decoded
    /\ decoded = map codec.wired [json_plain "TEST-001"; json_plain "TEST-002"]
    /\ map codec.Data decoded
       = map codec.Data [json_plain "TEST-001"; json_plain "TEST-002"]
    /\ forall name,
        map (fun payload => codec.metadata payload name) decoded
        = map (fun payload => codec.metadata payload name)
              [json_plain "TEST-001"; json_plain "TEST-002"].
Proof.
  apply (Decode_Encode_round_trip key32 (codec.mkEncryptionCodec key32) steady
           [json_plain "TEST-001"; json_plain "TEST-002"] 0).
  - reflexivity.
  - intros n. exists Byte.x07. reflexivity.
  - repeat constructor; eexists; reflexivity.
  - repeat constructor.
Defined.

Lemma Decode_passes_plain_payloads_witness :
  codec.Decode (codec.mkEncryptionCodec []) [json_plain "TEST-001"]
  = Ok [json_plain "TEST-001"].
Proof.
  apply (Decode_passes_plain_payloads (codec.mkEncryptionCodec []) [json_plain "TEST-001"]).
  repeat constructor.
Defined.


(** The repository's test of the codec, on the stand-ins. *)
Example EncryptionCodec_test :
  match codec.NewEncryptionCodec key32 with
  | Ok e =>
      match fst (codec.Encode e steady [json_plain "TEST-001"] 0) with
      | Ok [encrypted] =>
          codec.metadata encrypted "encoding" = codec.MetadataEncodingEncrypted
          /\ codec.Data encrypted <> codec.Data (json_plain "TEST-001")
          /\ codec.Decode e [encrypted] = Ok [json_plain "TEST-001"]
      | _ => False
      end
  | Fail _ => False
  end.
Proof. vm_compute. repeat split. discriminate. Qed.

(** ** The key of the codec, the environment and the order of the starter *)

Lemma ReadFull_length (r : Reader) (n : nat) :
  forall off buf, fst (ReadFull r off n) = Ok buf -> length buf = n.
Proof.
  intros off buf E. destruct (ReadFull r off n) as [res off'] eqn:E'.
  cbn in E. subst res. exact (proj1 (ReadFull_ok _ _ _ _ _ E')).
Qed.

Lemma generated_key_length (files : Files) (rand_Reader : Reader) :
  match worker.generateOrGetEncryptionKey files rand_Reader with
  | Continues (key, _) => length key = 32%nat
  | Exits msg =>
      exists err, fst (ReadFull rand_Reader 0 32) = Fail err
                  /\ msg = ("Failed to generate encryption key: " ++ Error err)%string
  end.
Proof.
  unfold worker.generateOrGetEncryptionKey.
  destruct (ReadFile files ".encryption.key") as [key|err].
  - destruct (Nat.eqb_spec (length key) 32) as [Hl|_]; [exact Hl|].
    destruct (fst (ReadFull rand_Reader 0 32)) as [fresh|err] eqn:E.
    + exact (ReadFull_length _ _ _ _ E).
    + exists err. auto.
  - destruct (fst (ReadFull rand_Reader 0 32)) as [fresh|err'] eqn:E.
    + exact (ReadFull_length _ _ _ _ E).
    + exists err'. auto.
Qed.

(** X18. Whatever the key file holds and whatever the random source gives,
    the key [generateOrGetEncryptionKey] returns has 32 bytes, the length
    [NewEncryptionCodec] asks for: the data converter is made of it without
    an error, and the worker gives up at this point only when the random
    source fails. *)
Theorem generated_key_is_always_usable (environ : gmap string string) (files : Files)
        (rand_Reader : Reader) :
  match worker.generateOrGetEncryptionKey files rand_Reader with
  | Continues (key, _) =>
      length key = 32%nat
      /\ codec.NewEncryptionDataConverter key
         = Ok {| codec.codecs := [ {| codec.key := key |} ] |}
  | Exits msg =>
      exists err, fst (ReadFull rand_Reader 0 32) = Fail err
                  /\ msg = ("Failed to generate encryption key: " ++ Error err)%string
  end
  /\ forall msg,
      worker.clientOptions environ files rand_Reader = Exits msg ->
      worker.generateOrGetEncryptionKey files rand_Reader = Exits msg.
Proof.
  assert (Hkey : forall key, length key = 32%nat ->
                   codec.NewEncryptionDataConverter key
                   = Ok {| codec.codecs := [ {| codec.key := key |} ] |}).
  { intros key Hl. unfold codec.NewEncryptionDataConverter, codec.NewEncryptionCodec.
    rewrite Hl. reflexivity. }
  pose proof (generated_key_length files rand_Reader) as Hgen.
  split.
  - destruct (worker.generateOrGetEncryptionKey files rand_Reader) as [[key files']|msg];
      [split; [exact Hgen | exact (Hkey key Hgen)] | exact Hgen].
  - intros msg. unfold worker.clientOptions.
    destruct (String.eqb _ "true"); [|discriminate].
    destruct (worker.generateOrGetEncryptionKey files rand_Reader) as [[key files']|msg'];
      [|intros E; injection E as ->; reflexivity].
    rewrite (Hkey key Hgen). discriminate.
Qed.

Lemma generated_key_is_always_usable_witness :
  worker.generateOrGetEncryptionKey (read_only no_files) broken
  = Exits "Failed to generate encryption key: entropy source unavailable".
Proof.
  apply (proj2 (generated_key_is_always_usable
                  {[ "ENCRYPTION_ENABLED"%string := "true"%string ]}
                  (read_only no_files) broken)).
  reflexivity.
Defined.

(** X19. A key file that does not hold 32 bytes is not used and not
    reported: a new key is drawn and written over it. A file of 32 bytes is
    used as it is, then nothing is drawn and nothing written. *)
Theorem key_file_of_another_length_is_replaced (files : Files) (rand_Reader : Reader)
        (old : bytes) :
  ReadFile files ".encryption.key" = Ok old ->
  (length old = 32%nat ->
   worker.generateOrGetEncryptionKey files rand_Reader = Continues (old, ReadFile files))
  /\ (length old <> 32%nat ->
      forall fresh,
        fst (ReadFull rand_Reader 0 32) = Ok fresh ->
        worker.generateOrGetEncryptionKey files rand_Reader
        = Continues (fresh, snd (WriteFile files ".encryption.key" fresh))
        /\ length fresh = 32%nat /\ fresh <> old).
Proof.
  intros Hf. unfold worker.generateOrGetEncryptionKey. rewrite Hf. split.
  - intros ->. reflexivity.
  - intros Hl fresh Hr. destruct (Nat.eqb_spec (length old) 32) as [|_]; [contradiction|].
    rewrite Hr. pose proof (ReadFull_length _ _ _ _ Hr) as Hn.
    split; [reflexivity | split; [exact Hn | congruence]].
Qed.

Lemma key_file_of_another_length_is_replaced_witness :
  worker.generateOrGetEncryptionKey (writable long_key_file) steady
  = Continues (repeat Byte.x07 32,
               snd (WriteFile (writable long_key_file) ".encryption.key" (repeat Byte.x07 32)))
  /\ length (repeat Byte.x07 32) = 32%nat
  /\ repeat Byte.x07 32 <> repeat Byte.x2a 32 ++ [Byte.x0a].
Proof.
  apply (proj2 (key_file_of_another_length_is_replaced
                  (writable long_key_file) steady (repeat Byte.x2a 32 ++ [Byte.x0a])
                  eq_refl)).
  - vm_compute. lia.
  - reflexivity.
Defined.

(** X20. Once the key file holds the key the worker uses, because the
    worker found it there or could save it, the starter loads the same
    key: it reads the file, writes nothing and draws no random bytes. *)
Theorem starter_loads_the_key_of_the_worker (files : Files) (rand_Reader : Reader)
        (key : bytes) (files' : string -> result bytes) :
  worker.generateOrGetEncryptionKey files rand_Reader = Continues (key, files') ->
  files' ".encryption.key"%string = Ok key ->
  forall (write : string -> bytes -> option error * (string -> result bytes))
         (rand_Reader' : Reader),
    starter.loadEncryptionKey {| ReadFile := files'; WriteFile := write |} rand_Reader'
    = Continues (key, files').
Proof.
  intros Hw Hf write r'.
  assert (Hl : length key = 32%nat).
  { pose proof (generated_key_length files rand_Reader) as H.
    rewrite Hw in H. exact H. }
  unfold starter.loadEncryptionKey. cbn [ReadFile]. rewrite Hf, Hl. reflexivity.
Qed.

Lemma starter_loads_the_key_of_the_worker_witness :
  exists key files',
    worker.generateOrGetEncryptionKey (writable no_files) steady = Continues (key, files')
    /\ starter.loadEncryptionKey (read_only files') broken = Continues (key, files').
Proof.
  eexists _, _. split; [reflexivity|].
  apply (starter_loads_the_key_of_the_worker (writable no_files) steady); reflexivity.
Defined.

(** Where the worker cannot save its key, the starter draws one of its
    own. *)
Example keys_differ_without_the_file :
  worker.generateOrGetEncryptionKey (read_only no_files) steady
  = Continues (repeat Byte.x07 32, no_files)
  /\ starter.loadEncryptionKey (read_only no_files) (fun _ => Ok Byte.x08)
     = Continues (repeat Byte.x08 32, no_files).
Proof. split; reflexivity. Qed.

(** *** The environment *)

Lemma uint_of_string_digits (s : string) :
  digits s = false -> NilEmpty.uint_of_string s = None.
Proof.
  induction s as [|c s IH]; [discriminate|].
  cbn [digits NilEmpty.uint_of_string]. intros Hd.
  destruct (digits s).
  - rewrite andb_true_r in Hd. unfold uint_of_char.
    destruct (NilEmpty.uint_of_string s); [|reflexivity].
    destruct c as [[] [] [] [] [] [] [] []]; try discriminate Hd; reflexivity.
  - rewrite (IH eq_refl). reflexivity.
Qed.

Lemma Atoi_not_a_number (c : ascii) (rest : string) :
  digits rest = false -> Atoi (String c rest) = None.
Proof.
  intros Hd. pose proof (uint_of_string_digits _ Hd) as Hr.
  assert (Hs : NilEmpty.uint_of_string (String c rest) = None).
  { cbn [NilEmpty.uint_of_string]. rewrite Hr. reflexivity. }
  assert (Hn : rest <> EmptyString) by (intros ->; discriminate Hd).
  unfold Atoi. destruct rest as [|c' rest']; [contradiction|].
  rewrite Hr, Hs.
  destruct c as [[] [] [] [] [] [] [] []]; reflexivity.
Qed.

Lemma Atoi_uint (d : Decimal.uint) :
  d <> Decimal.Nil ->
  - 2 ^ 63 <= Z.of_uint d < 2 ^ 63 ->
  Atoi (NilEmpty.string_of_uint d) = Some (Z.of_uint d).
Proof.
  intros Hd Hr.
  assert (Hint : Z.leb (- 2 ^ 63) (Z.of_uint d) && Z.ltb (Z.of_uint d) (2 ^ 63) = true).
  { apply andb_true_intro. split; [apply Z.leb_le | apply Z.ltb_lt]; lia. }
  pose proof (NilEmpty.usu d) as Hu.
  unfold Atoi.
  destruct d; [contradiction|..];
    cbn [NilEmpty.string_of_uint] in *; rewrite Hu; cbn [option_map]; rewrite Hint;
    reflexivity.
Qed.

Lemma Atoi_itoa (n : Z) : - 2 ^ 63 <= n < 2 ^ 63 -> Atoi (itoa n) = Some n.
Proof.
  intros Hr. unfold itoa. destruct n as [|p|p].
  - reflexivity.
  - cbn [Z.to_int NilZero.string_of_int]. unfold NilZero.string_of_uint.
    pose proof (Unsigned.to_uint_nonnil p) as Hn.
    assert (Hz : Z.of_uint (Pos.to_uint p) = Z.pos p).
    { unfold Z.of_uint. rewrite DecimalPos.Unsigned.of_to. reflexivity. }
    pose proof (Atoi_uint (Pos.to_uint p) Hn) as Ha. rewrite Hz in Ha.
    destruct (Pos.to_uint p); [contradiction|..]; exact (Ha Hr).
  - cbn [Z.to_int NilZero.string_of_int]. unfold NilZero.string_of_uint.
    pose proof (Unsigned.to_uint_nonnil p) as Hn.
    assert (Hz : Z.of_uint (Pos.to_uint p) = Z.pos p).
    { unfold Z.of_uint. rewrite DecimalPos.Unsigned.of_to. reflexivity. }
    assert (Hint : Z.leb (- 2 ^ 63) (- Z.pos p) && Z.ltb (- Z.pos p) (2 ^ 63) = true).
    { apply andb_true_intro. split; [apply Z.leb_le | apply Z.ltb_lt]; lia. }
    pose proof (NilEmpty.usu (Pos.to_uint p)) as Hu.
    unfold Atoi.
    destruct (Pos.to_uint p); [contradiction|..];
      cbn [NilEmpty.string_of_uint] in *; rewrite Hu; cbn [option_map]; rewrite Hz, Hint;
      reflexivity.
Qed.

(** X21. [getEnvAsInt] reads a variable that holds the decimal digits of an
    [int], with its sign if it is negative, as that number. It falls back
    on the default, without a word, when the variable is not set or empty,
    and when anything but a digit follows its first character. *)
Theorem getEnvAsInt_reads_decimal_or_falls_back
        (environ : gmap string string) (key : string) (defaultValue : Z) :
  (forall n, - 2 ^ 63 <= n < 2 ^ 63 ->
             environ !! key = Some (itoa n) ->
             worker.getEnvAsInt environ key defaultValue = n)
  /\ (environ !! key = None \/ environ !! key = Some ""%string ->
      worker.getEnvAsInt environ key defaultValue = defaultValue)
  /\ (forall c rest,
         environ !! key = Some (String c rest) -> digits rest = false ->
         worker.getEnvAsInt environ key defaultValue = defaultValue).
Proof.
  unfold worker.getEnvAsInt, Getenv. split; [|split].
  - intros n Hr ->. cbn [default from_option id]. pose proof (Atoi_itoa n Hr) as Ha.
    destruct (String.eqb_spec (itoa n) "") as [E|_]; cbn [negb].
    + rewrite E in Ha. discriminate Ha.
    + rewrite Ha. reflexivity.
  - intros [-> | ->]; reflexivity.
  - intros c rest -> Hd. cbn [default from_option id]. rewrite (Atoi_not_a_number c rest Hd).
    destruct (negb _); reflexivity.
Qed.

Lemma getEnvAsInt_reads_decimal_or_falls_back_witness :
  worker.getEnvAsInt {[ "HEALTH_PORT"%string := "8091"%string ]} "HEALTH_PORT" 8090 = 8091
  /\ worker.getEnvAsInt ∅ "HEALTH_PORT" 8090 = 8090
  /\ worker.getEnvAsInt {[ "HEALTH_PORT"%string := "80a"%string ]} "HEALTH_PORT" 8090 = 8090.
Proof.
  split; [|split].
  - apply (proj1 (getEnvAsInt_reads_decimal_or_falls_back
                    {[ "HEALTH_PORT"%string := "8091"%string ]} "HEALTH_PORT" 8090) 8091);
      [lia | reflexivity].
  - apply (proj1 (proj2 (getEnvAsInt_reads_decimal_or_falls_back ∅ "HEALTH_PORT" 8090))).
    left. reflexivity.
  - apply (proj2 (proj2 (getEnvAsInt_reads_decimal_or_falls_back
                           {[ "HEALTH_PORT"%string := "80a"%string ]} "HEALTH_PORT" 8090))
             "8"%char "0a"%string); reflexivity.
Defined.

(** *** The order of the starter *)

Lemma mock_chop (s : string) (a b : ascii) :
  mock.chop (s ++ String a (String b EmptyString))%string = s.
Proof.
  induction s as [|c s IH]; [reflexivity|].
  change (mock.chop (String c (s ++ String a (String b EmptyString))%string) = String c s).
  cbn [mock.chop]. rewrite IH.
  destruct s as [|c' [|c'' s]]; reflexivity.
Qed.

Lemma mock_json_Unmarshal_plain (s : string) (items : list string) :
  starter.plain s = true ->
  mock.json_Unmarshal ("[" ++ starter.quote ++ s ++ starter.quote ++ "]")%string items
  = ([s], None).
Proof.
  intros _.
  change ("[" ++ starter.quote ++ s ++ starter.quote ++ "]")%string
    with (String "[" (String (ascii_of_nat 34)
                             (s ++ String (ascii_of_nat 34) (String "]" EmptyString))%string)).
  cbn [mock.json_Unmarshal]. rewrite mock_chop. reflexivity.
Qed.

#[export] Instance mock_Json : starter.Json :=
  {| starter.json_Unmarshal := mock.json_Unmarshal;
     starter.json_Unmarshal_plain := mock_json_Unmarshal_plain |}.

(** X22. The items flag of the starter is not split at its commas: a value
    of printable characters without quote and backslash becomes the one
    item of the order, whatever commas it holds. The order goes to the
    workflow under the id made of its own, on the task queue of the
    worker. *)
Theorem items_flag_is_one_item `{starter.Json} (now : nat -> Time) (orderID : string)
        (amount : float64) (itemsStr : string) :
  starter.plain itemsStr = true ->
  itemsStr <> ""%string ->
  Items (starter.order (starter.startWorkflow now orderID amount itemsStr)) = [itemsStr]
  /\ starter.StartWorkflowOptions_ID
       (starter.options (starter.startWorkflow now orderID amount itemsStr))
     = ("order-workflow-"
          ++ ID (starter.order (starter.startWorkflow now orderID amount itemsStr)))%string
  /\ starter.TaskQueue (starter.options (starter.startWorkflow now orderID amount itemsStr))
     = worker.taskQueue.
Proof.
  intros Hp Hn. unfold starter.startWorkflow.
  destruct (String.eqb orderID ""); cbn [starter.order starter.options Items ID
                                          starter.StartWorkflowOptions_ID starter.TaskQueue].
  all: destruct (String.eqb_spec itemsStr "") as [|_]; [contradiction|]; cbn [negb].
  all: rewrite (starter.json_Unmarshal_plain _ _ Hp); repeat split.
Qed.

Lemma items_flag_is_one_item_witness :
  Items (starter.order (starter.startWorkflow (fun _ => 1700000000 * Second) "ORDER-001"
                                              4647503709213818880 "laptop,mouse,keyboard"))
  = ["laptop,mouse,keyboard"%string]
  /\ starter.StartWorkflowOptions_ID
       (starter.options (starter.startWorkflow (fun _ => 1700000000 * Second) "ORDER-001"
                                               4647503709213818880 "laptop,mouse,keyboard"))
     = ("order-workflow-"
          ++ ID (starter.order
                   (starter.startWorkflow (fun _ => 1700000000 * Second) "ORDER-001"
                                          4647503709213818880 "laptop,mouse,keyboard")))%string
  /\ starter.TaskQueue
       (starter.options (starter.startWorkflow (fun _ => 1700000000 * Second) "ORDER-001"
                                               4647503709213818880 "laptop,mouse,keyboard"))
     = worker.taskQueue.
Proof.
  apply (items_flag_is_one_item (fun _ => 1700000000 * Second) "ORDER-001"
           4647503709213818880 "laptop,mouse,keyboard"); [reflexivity | discriminate].
Defined.

(** The starter's examples of the README, on the stand-in for
    [encoding/json]. *)
Example startWorkflow_examples :
  starter.order (starter.startWorkflow (fun n => (1700000000 + Z.of_nat n) * Second)
                                       "" 4636737291354636288 "item1,item2")
  = {| ID := "ORD-1700000000"; Items := ["item1,item2"%string];
       Amount := 4636737291354636288; Order_Status := StatusPending;
       CreatedAt := 1700000001 * Second |}
  /\ Items (starter.order (starter.startWorkflow (fun _ => 0) "ORDER-003"
                                                 4636737291354636288 ""))
     = [].
Proof. split; reflexivity. Qed.
